(** * struct-tag-validator: a shallow embedding of the validator and its rules

    The development follows [tag.go] and [validator.go].  Go strings are byte
    strings ([string]); Go maps are finite maps ([gmap]) whose [range] order
    is an explicit argument; Go slices of processors are slice headers over a
    store of backing arrays, so that the aliasing created by [append] is
    visible; a processor is a function from a tag to its errors; a panic is
    an outcome of its own.  The Go parser, the regular expressions compiled
    from tag names, the growth of slices and the scheduling of the fan-in are
    parameters. *)

From Stdlib Require Import Ascii String.
From stdpp Require Import base option list gmap strings fin_maps.

Local Open Scope nat_scope.

(** ** Bytes and the character classes of the default rules *)

Module Char.

Definition code (c : ascii) : nat := nat_of_ascii c.

Definition in_range (lo hi : nat) (c : ascii) : bool :=
  (lo <=? code c) && (code c <=? hi).

(** [a-z] *)
Definition lower (c : ascii) : bool := in_range 97 122 c.
(** [A-Z] *)
Definition upper (c : ascii) : bool := in_range 65 90 c.
(** [0-9] *)
Definition digit (c : ascii) : bool := in_range 48 57 c.

Definition eqc (x c : ascii) : bool := bool_decide (c = x).

(** The class [a-z0-9_, ] negated by the first default rule. *)
Definition symbol (c : ascii) : bool :=
  lower c || digit c || eqc "_" c || eqc "," c || eqc " " c.

(** The class [a-z0-9] negated by the second default rule. *)
Definition alnum (c : ascii) : bool := lower c || digit c.

(** The class [a-z0-9_ ] the specification names for the first rule. *)
Definition spec_symbol (c : ascii) : bool :=
  lower c || digit c || eqc "_" c || eqc " " c.

(** [strings.ToLower] on one byte.  Exact on ASCII text, which is all the
    file names below use; bytes above 127 are left alone. *)
Definition to_lower (c : ascii) : ascii :=
  if upper c then ascii_of_nat (code c + 32) else c.

End Char.

(** ** Strings *)

Definition chars (s : string) : list ascii := String.list_ascii_of_string s.

(** [strings.Join] *)
Fixpoint Join (elems : list string) (sep : string) : string :=
  match elems with
  | [] => ""
  | [e] => e
  | e :: rest => e +:+ sep +:+ Join rest sep
  end.

(** [strings.ToLower] *)
Fixpoint ToLower (s : string) : string :=
  match s with
  | EmptyString => EmptyString
  | String c s' => String (Char.to_lower c) (ToLower s')
  end.

(** [strings.HasSuffix] *)
Definition HasSuffix (s suffix : string) : bool :=
  let n := String.length s in
  let k := String.length suffix in
  (k <=? n) && String.eqb (String.substring (n - k) k s) suffix.

(** ** The two shapes of regular expression the default rules use

    [NegPlus cls] is [[^cls]+] and [NegEnd cls] is [[^cls]$].  Both classes
    are ASCII, so every byte of a non-ASCII rune is outside them: whether a
    match exists, and the text of a [NegPlus] match, are the same by bytes as
    by runes. *)

Inductive Regexp :=
  | NegPlus (cls : ascii → bool)
  | NegEnd (cls : ascii → bool).

(** Longest prefix made of bytes outside [cls]. *)
Fixpoint span_outside (cls : ascii → bool) (s : string) : string :=
  match s with
  | EmptyString => EmptyString
  | String c s' => if cls c then EmptyString else String c (span_outside cls s')
  end.

(** Leftmost, longest match of [[^cls]+]. *)
Fixpoint find_neg_plus (cls : ascii → bool) (s : string) : string :=
  match s with
  | EmptyString => EmptyString
  | String c s' =>
      if cls c then find_neg_plus cls s' else String c (span_outside cls s')
  end.

(** Leftmost match of [[^cls]$]: the last byte, when it is outside [cls].
    Go matches the last rune: a match exists in the same cases, and its text
    is this byte when the byte is ASCII; after a multi-byte rune the text Go
    reports is the whole rune, of which this is the last byte. *)
Fixpoint find_neg_end (cls : ascii → bool) (s : string) : string :=
  match s with
  | EmptyString => EmptyString
  | String c EmptyString => if cls c then EmptyString else String c EmptyString
  | String _ s' => find_neg_end cls s'
  end.

(** [Regexp.FindString]: the text of the leftmost match, the empty string
    when there is none. *)
Definition FindString (re : Regexp) (s : string) : string :=
  match re with
  | NegPlus cls => find_neg_plus cls s
  | NegEnd cls => find_neg_end cls s
  end.

(** ** Tag records (tag.go) *)

Record Tag := mkTag { name : string; value : string; structName : string }.

Definition GetName (t : Tag) : string := name t.
Definition GetValue (t : Tag) : string := value t.
Definition GetStructName (t : Tag) : string := structName t.

(** ** Errors

    [fmt.Errorf format args...] is kept as the format with its arguments, in
    the order of the call; [errors.New msg] as its message. *)

Inductive error :=
  | Errorf (format : string) (args : list string)
  | New (msg : string).

Definition Processor : Type := Tag → list error.

(** ** validator.go: constants and default rules *)

Definition AllTags : string := "*".

Definition symbols_msg : string := "Invalid symboles %v in %v.%v.%v".
Definition ending_msg : string := "Tag cannot end on %v in  %v.%v.%v".
Definition empty_msg : string := "Tag cannot be empty %v.%v".
Definition duplicate_msg : string := "Duplicate tag value %v in %v.%v".

(** The two entries of the map [defaultRegexRules]. *)
Definition defaultRegexRules : list (string * Regexp) :=
  [ (symbols_msg, NegPlus Char.symbol);
    (ending_msg, NegEnd Char.alnum) ].

(** The body of the loop over [defaultRegexRules] for one entry. *)
Definition regex_step (tag : Tag) (errs : list error) (rule : string * Regexp)
  : list error :=
  let '(msg, rexpr) := rule in
  let match_ := FindString rexpr (GetValue tag) in
  if 0 <? String.length match_
  then errs ++ [Errorf msg [match_; GetStructName tag; GetName tag; GetValue tag]]
  else errs.

(** First closure of [AddDefaultProcessors].  [order] is the order in which
    [range] visits the entries of [defaultRegexRules]. *)
Definition regexProcessor (order : list (string * Regexp)) : Processor :=
  λ tag, foldl (regex_step tag) [] order.

(** Second closure of [AddDefaultProcessors]. *)
Definition emptyProcessor : Processor :=
  λ tag,
    if String.length (GetValue tag) =? 0
    then [Errorf empty_msg [GetStructName tag; GetName tag]]
    else [].

(** The findings of one rule among a list of errors, by format. *)
Definition is_finding (msg : string) (e : error) : bool :=
  match e with
  | Errorf f _ => String.eqb f msg
  | New _ => false
  end.

Definition findings (msg : string) (errs : list error) : list error :=
  List.filter (is_finding msg) errs.

Definition flags (msg : string) (errs : list error) : Prop :=
  findings msg errs ≠ [].

(** The errors one entry of [defaultRegexRules] contributes on a tag. *)
Definition rule_errs (tag : Tag) (rule : string * Regexp) : list error :=
  regex_step tag [] rule.

(** Maximal runs of bytes outside [cls], left to right; [cur] is the run
    being read. *)
Fixpoint runs_outside (cls : ascii → bool) (cur : string) (s : string)
  : list string :=
  match s with
  | EmptyString =>
      match cur with
      | EmptyString => []
      | _ => [cur]
      end
  | String c s' =>
      if cls c then
        match cur with
        | EmptyString => runs_outside cls "" s'
        | _ => cur :: runs_outside cls "" s'
        end
      else runs_outside cls (cur +:+ String c "") s'
  end.

Definition illegal_runs (cls : ascii → bool) (s : string) : list string :=
  runs_outside cls "" s.

(** ** Outcomes: a call returns or panics *)

Inductive outcome (A : Type) :=
  | Returned (a : A)
  | Panicked (reason : error).
Arguments Returned {A} a.
Arguments Panicked {A} reason.

(** ** Slices of processors

    A slice is a header (address of the backing array, length, capacity); the
    store maps an address to the slots of the array written so far, the
    remaining slots up to the capacity being nil. *)

Record slice := mkSlice { ptr : nat; len : nat; cap : nat }.

Abbreviation store := (list (list Processor)).

(** The empty slice: the value of a missing map entry and of [[]T{}]. *)
Definition nil_slice : slice := mkSlice 0 0 0.

Definition backing (h : store) (s : slice) : list Processor :=
  default [] (h !! ptr s).

(** The elements a slice shows: the first [len] slots of its array. *)
Definition elems (h : store) (s : slice) : list Processor :=
  take (len s) (backing h s).

(** ** Parsed sources

    A parsed file is kept as what [collecFields] reads from it: the tagged
    fields of the struct types the walk visits, in walk order, each with the
    type name current at that point and its raw tag text. *)

Record Field := mkField { owner : string; raw : string }.

Definition File : Type := list Field.

Record Package := mkPackage { Name : string; Files : gmap string File }.

(** An entry of the scanned directory: its base name, whether it is a
    directory, and what [parser.ParseFile] makes of it (package name and file,
    or nothing on a syntax error). *)
Record DirEntry := mkDirEntry {
  d_name : string;
  d_isDir : bool;
  d_parse : option (string * File) }.

(** [os.ReadDir] of the folder under GOPATH/src; [None] when it fails. *)
Definition Env : Type := string → option (list DirEntry).

Definition read_error : error := New "cannot read directory".
Definition syntax_error (file : string) : error := Errorf "%v: syntax error" [file].

(** [parser.ParseDir] of the Go library, with a filter on names. *)
Definition parse_entry (filter : string → bool)
    (acc : gmap string Package * option error) (d : DirEntry)
  : gmap string Package * option error :=
  let '(pkgs, first) := acc in
  if d_isDir d || negb (HasSuffix (d_name d) ".go") then acc
  else if negb (filter (d_name d)) then acc
  else match d_parse d with
       | Some (pname, src) =>
           let pkg := default (mkPackage pname ∅) (pkgs !! pname) in
           (<[pname := mkPackage (Name pkg) (<[d_name d := src]> (Files pkg))]> pkgs,
            first)
       | None =>
           (pkgs, match first with None => Some (syntax_error (d_name d)) | _ => first end)
       end.

Definition ParseDir (env : Env) (folder : string) (filter : string → bool)
  : gmap string Package * option error :=
  match env folder with
  | None => (∅, Some read_error)
  | Some entries => foldl (parse_entry filter) (∅, None) entries
  end.

(** ** tag.go: getPackages *)

Definition model_key (model : string) : string := Join [ToLower model; "go"] ".".

Definition modelMap (models : list string) : gmap string bool :=
  foldl (λ m model, <[model_key model := true]> m) ∅ models.

(** The filter closure handed to [ParseDir]. *)
Definition fileFilter (modelMap : gmap string bool) (fname : string) : bool :=
  let isNotTest := negb (HasSuffix fname "_test.go") in
  if 0 <? size modelMap then
    let exists_ := bool_decide (is_Some (modelMap !! ToLower fname)) in
    negb (Bool.eqb isNotTest (negb exists_))
  else isNotTest.

(** The panic of an empty scan; the path is kept as the folder it ends in. *)
Definition no_structs (folder : string) : error :=
  Errorf "No structs found at %v" [folder].

Definition getPackages (env : Env) (folder : string) (models : list string)
  : outcome (gmap string Package) :=
  match ParseDir env folder (fileFilter (modelMap models)) with
  | (_, Some err) => Panicked err
  | (pkgs, None) =>
      if size pkgs =? 0 then Panicked (no_structs folder) else Returned pkgs
  end.

(** ** validator.go: the duplicate check *)

Definition cacheKey (t : Tag) : string :=
  Join [GetStructName t; GetName t; GetValue t] ".".

Definition duplicate_error (t : Tag) : error :=
  Errorf duplicate_msg [GetValue t; GetStructName t; GetName t].

Definition checkForDuplicates (t : Tag) (fieldsCache : gmap string bool)
  : list error * gmap string bool :=
  let errs := if bool_decide (is_Some (fieldsCache !! cacheKey t))
              then [duplicate_error t] else [] in
  (errs, <[cacheKey t := true]> fieldsCache).

(** ** The validator *)

Record Validator := mkValidator {
  packages : gmap string Package;
  tags : gmap string (list Tag);
  processors : gmap string slice;
  path : string;
  allowDuplicates : bool }.

Definition setPath (p : string) (v : Validator) : Validator :=
  mkValidator (packages v) (tags v) (processors v) p (allowDuplicates v).

Definition SetAllowDuplicates (b : bool) (v : Validator) : Validator :=
  mkValidator (packages v) (tags v) (processors v) (path v) b.

Definition NewValidator (p : string) : Validator :=
  let m := mkValidator ∅ ∅ ∅ "" false in
  let m := setPath p m in
  let m := mkValidator (packages m) (tags m) ∅ (path m) (allowDuplicates m) in
  SetAllowDuplicates false m.

Definition no_processors : error :=
  New "there are no processors to run, consider adding the default ones".
Definition no_tags : error := New "No tags found".

(** The pattern [getTags] compiles. *)
Definition quote : string := String (ascii_of_nat 34) EmptyString.

Definition dbPattern (tagNames : list string) : string :=
  let concatNames :=
    if bool_decide (AllTags ∈ tagNames) then "[a-z0-9_]+" else Join tagNames "|" in
  Join ["("; concatNames; ")";
        "[ ]*:[ ]*" +:+ quote +:+ "([^" +:+ quote +:+ "]*)" +:+ quote] "".

(** A compiled pattern, as [FindAllStringSubmatch] with it: for each match,
    the whole match followed by its groups. *)
Definition Matcher : Type := string → list (list string).

(** What [collecFields] sends on its channel before the closing nil. *)
Definition collecFields (file : File) (dbRegex : Matcher) : list Tag :=
  flat_map (λ field,
      (λ matchTags : list string,
         mkTag (default "" (matchTags !! 1)) (default "" (matchTags !! 2)) (owner field))
        <$> dbRegex (raw field))
    file.

(** The receiving loop of [getTags]. *)
Definition group_tags (arrived : list Tag) : gmap string (list Tag) :=
  foldl (λ tags tag,
           <[structName tag := default [] (tags !! structName tag) ++ [tag]]> tags)
        ∅ arrived.

(** [out] is a way the fan-in can deliver what the channels [cs] carry: each
    step takes the head of one channel. *)
Inductive Interleaving {A : Type} : list (list A) → list A → Prop :=
  | il_done cs : Forall (λ c, c = []) cs → Interleaving cs []
  | il_step cs i x c out :
      cs !! i = Some (x :: c) →
      Interleaving (<[i := c]> cs) out →
      Interleaving cs (x :: out).

Section Validator.

(** Parameters of the Go runtime and library:
    - [growcap old needed], the capacity [append] gives a reallocated slice;
    - [compile], [regexp.Compile] ([None] when the pattern is not valid);
    - [range], the order in which a map is iterated;
    - [multiplex], the order in which the fan-in delivers. *)
Variable growcap : nat → nat → nat.
Variable compile : string → option Matcher.
Variable range : ∀ V : Type, gmap string V → list (string * V).
Variable multiplex : list (list Tag) → list Tag.

(** [append(s, xs...)] *)
Definition append (h : store) (s : slice) (xs : list Processor) : store * slice :=
  match xs with
  | [] => (h, s)
  | _ =>
      let n := len s + length xs in
      if n <=? cap s then
        (<[ptr s := take (len s) (backing h s) ++ xs ++ drop n (backing h s)]> h,
         mkSlice (ptr s) n (cap s))
      else
        (h ++ [elems h s ++ xs], mkSlice (length h) n (growcap (cap s) n))
  end.

Definition AddProcessor (tag : string) (processor : Processor)
    (st : Validator * store) : Validator * store :=
  let '(v, h) := st in
  let '(h', s) := append h (default nil_slice (processors v !! tag)) [processor] in
  (mkValidator (packages v) (tags v) (<[tag := s]> (processors v)) (path v)
     (allowDuplicates v), h').

(** [order] is the [range] order the first closure uses. *)
Definition AddDefaultProcessors (order : list (string * Regexp))
    (tags : list string) (st : Validator * store) : Validator * store :=
  let tags := match tags with [] => [AllTags] | _ => tags end in
  foldl (λ st tagStr,
           AddProcessor tagStr emptyProcessor
             (AddProcessor tagStr (regexProcessor order) st))
        st tags.

(** The body of the inner loop of [validate]. *)
Definition validate_tag (v : Validator)
    (st : store * gmap string bool * list error) (t : Tag)
  : store * gmap string bool * list error :=
  let '(h, fieldsCache, errs) := st in
  let '(errs, fieldsCache) :=
    if allowDuplicates v then (errs, fieldsCache)
    else let '(dups, fieldsCache) := checkForDuplicates t fieldsCache in
         (errs ++ dups, fieldsCache) in
  let executableProcessors :=
    match processors v !! GetName t with
    | Some processors => processors
    | None => nil_slice
    end in
  let '(h, executableProcessors) :=
    match processors v !! AllTags with
    | Some globalProcessors =>
        append h executableProcessors (elems h globalProcessors)
    | None => (h, executableProcessors)
    end in
  (h, fieldsCache,
   foldl (λ errs processor, errs ++ processor t) errs (elems h executableProcessors)).

Definition validate_loop (v : Validator) (visit : list (string * list Tag))
    (st : store * gmap string bool * list error)
  : store * gmap string bool * list error :=
  foldl (λ st fields, foldl (validate_tag v) st fields.2) st visit.

Definition validate (v : Validator) (h : store) : store * list error :=
  if size (tags v) =? 0 then (h, [no_tags])
  else let '(h, _, errs) := validate_loop v (range _ (tags v)) (h, ∅, []) in
       (h, errs).

(** One channel per file of every package, as [getTags] collects them. *)
Definition tagChans (dbRegex : Matcher) (packages : gmap string Package)
  : list (list Tag) :=
  flat_map (λ pkg, (λ file, collecFields file.2 dbRegex) <$> range _ (Files pkg.2))
           (range _ packages).

Definition getTags (tagNames : list string) (packages : gmap string Package)
  : outcome (gmap string (list Tag)) :=
  match compile (dbPattern tagNames) with
  | None => Panicked (Errorf "regexp: Compile(%v)" [dbPattern tagNames])
  | Some dbRegex => Returned (group_tags (multiplex (tagChans dbRegex packages)))
  end.

Definition Run (models : list string) (env : Env) (st : Validator * store)
  : outcome (Validator * store * list error) :=
  let '(v, h) := st in
  match getPackages env (path v) models with
  | Panicked e => Panicked e
  | Returned pkgs =>
      let v := mkValidator pkgs (tags v) (processors v) (path v) (allowDuplicates v) in
      if size (processors v) =? 0 then Returned (v, h, [no_processors])
      else
        let tags := (range _ (processors v)).*1 in
        match getTags tags (packages v) with
        | Panicked e => Panicked e
        | Returned found =>
            let v := mkValidator (packages v) found (processors v) (path v)
                       (allowDuplicates v) in
            let '(h, errs) := validate v h in
            Returned (v, h, errs)
        end
  end.

End Validator.

(** ** Notions the properties are stated with *)

(** A slice lies within the written part of its array, and its array is
    allocated as soon as it has room. *)
Definition slice_ok (h : store) (s : slice) : Prop :=
  len s ≤ length (backing h s) ∧ (0 < cap s → ptr s < length h).

(** The rule list a key of the registry shows. *)
Definition registered (v : Validator) (h : store) (k : string) : list Processor :=
  elems h (default nil_slice (processors v !! k)).

(** The rules that apply to a tag: those of its name, then the wildcard's. *)
Definition applicable (v : Validator) (h : store) (t : Tag) : list Processor :=
  registered v h (GetName t) ++ registered v h AllTags.

(** A registry is well formed in a store when every rule list lies within the
    written part of an allocated array and no two keys share an array. *)
Definition registry_wf (procs : gmap string slice) (h : store) : Prop :=
  (∀ k s, procs !! k = Some s →
          ptr s < length h ∧ len s ≤ length (backing h s))
  ∧ (∀ k1 k2 s1 s2, procs !! k1 = Some s1 → procs !! k2 = Some s2 →
                    ptr s1 = ptr s2 → k1 = k2).

(** What one tag adds to the error list: the duplicate finding, if any, then
    the errors of the applicable rules; with the cache after it. *)
Definition tag_errors (v : Validator) (h : store) (cache : gmap string bool)
    (t : Tag) : list error * gmap string bool :=
  let '(dups, cache') :=
    if allowDuplicates v then ([], cache) else checkForDuplicates t cache in
  (dups ++ flat_map (λ p : Processor, p t) (applicable v h t), cache').

Fixpoint run_errors (v : Validator) (h : store) (cache : gmap string bool)
    (ts : list Tag) : list error :=
  match ts with
  | [] => []
  | t :: ts' =>
      (tag_errors v h cache t).1 ++ run_errors v h (tag_errors v h cache t).2 ts'
  end.

(** The tags [validate] processes, in the order it processes them. *)
Definition processed (range : ∀ V : Type, gmap string V → list (string * V))
    (v : Validator) : list Tag :=
  concat (range _ (tags v)).*2.

(** What a run extracts, one list per file, when the scan and the pattern
    let it reach the extraction. *)
Definition extracted (compile : string → option Matcher)
    (range : ∀ V : Type, gmap string V → list (string * V))
    (models : list string) (env : Env) (v : Validator) : option (list (list Tag)) :=
  match getPackages env (path v) models with
  | Returned pkgs =>
      match compile (dbPattern (range _ (processors v)).*1) with
      | Some dbRegex => Some (tagChans range dbRegex pkgs)
      | None => None
      end
  | Panicked _ => None
  end.

(** The duplicate check along a sequence of tags: the cache it leaves, and
    the findings it makes. *)
Definition cache_after (cache : gmap string bool) (ts : list Tag) : gmap string bool :=
  foldl (λ c t, (checkForDuplicates t c).2) cache ts.

Fixpoint duplicate_findings (cache : gmap string bool) (ts : list Tag) : list error :=
  match ts with
  | [] => []
  | t :: ts' =>
      (checkForDuplicates t cache).1
        ++ duplicate_findings (checkForDuplicates t cache).2 ts'
  end.


#[global] Instance Tag_eq_dec : EqDecision Tag.
Proof. solve_decision. Defined.

(** The scan finds no package. *)
Definition no_packages (env : Env) (folder : string) (models : list string) : Prop :=
  (ParseDir env folder (fileFilter (modelMap models))).1 = ∅.

(** A file name is among the requested models. *)
Definition requested (models : list string) (fname : string) : Prop :=
  ToLower fname ∈ model_key <$> models.

#[global] Instance requested_dec models fname : Decision (requested models fname).
Proof. unfold requested. apply _. Defined.

(** Validators and stores the exported functions can build. *)
Inductive built (growcap : nat → nat → nat) : Validator * store → Prop :=
  | built_new p h : built growcap (NewValidator p, h)
  | built_allow b v h :
      built growcap (v, h) → built growcap (SetAllowDuplicates b v, h)
  | built_add tag processor st :
      built growcap st → built growcap (AddProcessor growcap tag processor st)
  | built_default order tags st :
      built growcap st → built growcap (AddDefaultProcessors growcap order tags st).


(** The names [AddDefaultProcessors] registers under: the wildcard when it
    is given none. *)
Definition default_names (tags : list string) : list string :=
  match tags with [] => [AllTags] | _ => tags end.

(** The two default rules, in the order they are registered. *)
Definition default_rules (order : list (string * Regexp)) : list Processor :=
  [regexProcessor order; emptyProcessor].

(** An entry [ParseDir] parses: a file with the .go suffix that the filter
    accepts. *)
Definition scanned (filter : string → bool) (d : DirEntry) : bool :=
  negb (d_isDir d) && HasSuffix (d_name d) ".go" && filter (d_name d).

(** A package of the scan holds a file under a name. *)
Definition holds (pkgs : gmap string Package) (pname fname : string) (src : File)
  : Prop :=
  ∃ pkg, pkgs !! pname = Some pkg ∧ Files pkg !! fname = Some src.

(** ** tag.go: the goroutines of the fan-in

    [collecFields] starts one goroutine for a file; it sends the tags of the
    file on a channel of capacity 50 and then nil.  [multiplex] starts one
    [output] goroutine for each of these channels, which forwards what it
    receives to [out] (capacity 50 for each channel) and returns when it
    receives nil, and one goroutine that closes [out] once every [output]
    has returned.  The loop of [getTags] receives from [out] until [out] is
    closed and empty.

    A state holds what each goroutine has still to do and what each channel
    buffers; an action is one communication of one goroutine, and a schedule
    is a list of actions. *)

(** Where an [output] goroutine stands: at [<-c], at [out <- tag], or
    returned. *)
Inductive output :=
  | Receiving
  | Sending (tag : Tag)
  | Done.

(** The state of the fan-in.  For each file: what its [collecFields]
    goroutine has still to send ([None] is nil), the buffer of its channel,
    and its [output] goroutine.  Then the buffer of [out], whether
    [close(out)] has run, whether a send on the closed [out] has panicked,
    and what the loop of [getTags] has received. *)
Record fanin := mkFanin {
  unsent : list (list (option Tag));
  tagChan : list (list (option Tag));
  outputs : list output;
  out : list Tag;
  closed : bool;
  crashed : bool;
  arrived : list Tag
}.

(** The communications: the send of a tag or of nil on the channel of file
    [i] in [collecFields]; the receive from that channel in [output]; the
    send on [out] in [output]; [close(out)] after [wg.Wait()]; the receive
    from [out] in [getTags]. *)
Inductive action :=
  | Collect (i : nat)
  | Receive (i : nat)
  | Forward (i : nat)
  | Close
  | Arrive.

(** What [collecFields] sends for a file with the tags [ts]. *)
Definition messages (ts : list Tag) : list (option Tag) := (Some <$> ts) ++ [None].

(** The state when [multiplex] has been called on the channels of [cs]. *)
Definition start (cs : list (list Tag)) : fanin :=
  mkFanin (messages <$> cs) (replicate (length cs) [])
          (replicate (length cs) Receiving) [] false false [].

Definition returned (o : output) : bool :=
  match o with Done => true | _ => false end.

(** One action; [None] when the goroutine is blocked (a send on a full
    buffer, a receive from an empty one, [wg.Wait()] before every [output]
    has returned) or has returned, or when the program has panicked.  A send
    on the closed [out] panics. *)
Definition exec (a : action) (st : fanin) : option fanin :=
  if crashed st then None else
  match a with
  | Collect i =>
      match unsent st !! i, tagChan st !! i with
      | Some (m :: rest), Some buf =>
          if length buf <? 50
          then Some (mkFanin (<[i := rest]> (unsent st))
                             (<[i := buf ++ [m]]> (tagChan st))
                             (outputs st) (out st) (closed st) false (arrived st))
          else None
      | _, _ => None
      end
  | Receive i =>
      match outputs st !! i, tagChan st !! i with
      | Some Receiving, Some (m :: buf) =>
          Some (mkFanin (unsent st) (<[i := buf]> (tagChan st))
                        (<[i := match m with
                                | Some tag => Sending tag
                                | None => Done
                                end]> (outputs st))
                        (out st) (closed st) false (arrived st))
      | _, _ => None
      end
  | Forward i =>
      match outputs st !! i with
      | Some (Sending tag) =>
          if closed st
          then Some (mkFanin (unsent st) (tagChan st) (outputs st) (out st)
                             true true (arrived st))
          else if length (out st) <? 50 * length (outputs st)
          then Some (mkFanin (unsent st) (tagChan st)
                             (<[i := Receiving]> (outputs st))
                             (out st ++ [tag]) false false (arrived st))
          else None
      | _ => None
      end
  | Close =>
      if closed st then None
      else if forallb returned (outputs st)
      then Some (mkFanin (unsent st) (tagChan st) (outputs st) (out st)
                         true false (arrived st))
      else None
  | Arrive =>
      match out st with
      | tag :: rest =>
          Some (mkFanin (unsent st) (tagChan st) (outputs st) rest
                        (closed st) false (arrived st ++ [tag]))
      | [] => None
      end
  end.

(** A schedule, from a state. *)
Fixpoint run (acts : list action) (st : fanin) : option fanin :=
  match acts with
  | [] => Some st
  | a :: acts => match exec a st with
                 | Some st' => run acts st'
                 | None => None
                 end
  end.

(** The loop of [getTags] leaves: [out] is closed and empty. *)
Definition drained (st : fanin) : bool :=
  closed st && match out st with [] => true | _ => false end.

(** The communications a state has still to make, counted with the number of
    hops each message has before it. *)
Definition sending (o : output) : nat :=
  match o with Sending _ => 1 | _ => 0 end.

Definition work (st : fanin) : nat :=
  4 * sum_list (length <$> unsent st)
  + 3 * sum_list (length <$> tagChan st)
  + 2 * sum_list (sending <$> outputs st)
  + length (out st)
  + (if closed st then 0 else 1)
  + (if crashed st then 0 else 1).

(** What a file has still to deliver to [out], seen from its [output]
    goroutine: [msgs] is the buffer of the channel followed by what is
    unsent, [ts] the tags of the file that are not in [out] yet. *)
Definition remaining (o : output) (msgs : list (option Tag)) (ts : list Tag) : Prop :=
  match o with
  | Receiving => msgs = messages ts
  | Sending tag => ∃ ts', ts = tag :: ts' ∧ msgs = messages ts'
  | Done => msgs = [] ∧ ts = []
  end.

(** The invariant of the fan-in on the channels [cs]: [sent] are the tags
    each file has put in [out] so far. *)
Definition fanin_inv (cs : list (list Tag)) (st : fanin) : Prop :=
  crashed st = false
  ∧ length (unsent st) = length cs
  ∧ length (tagChan st) = length cs
  ∧ length (outputs st) = length cs
  ∧ (closed st = true → ∀ i o, outputs st !! i = Some o → o = Done)
  ∧ ∃ sent : list (list Tag),
      length sent = length cs
      ∧ Interleaving sent (arrived st ++ out st)
      ∧ ∀ i o, outputs st !! i = Some o →
               ∃ c d r b p,
                 cs !! i = Some c ∧ sent !! i = Some d
                 ∧ tagChan st !! i = Some b ∧ unsent st !! i = Some p
                 ∧ c = d ++ r ∧ remaining o (b ++ p) r.

(** ** Example data *)

(** A directory with one model file and its test file, both of package
    models. *)
Definition models_dir : Env :=
  λ _, Some [ mkDirEntry "customer.go" false (Some ("models", []));
              mkDirEntry "customer_test.go" false (Some ("models", [])) ].

(** A directory with no entry. *)
Definition empty_dir : Env := λ _, Some [].

(** A directory whose one file declares Customer with two db-tagged fields;
    the raw text of a field stands for the value of its db tag. *)
Definition customer_dir : Env :=
  λ _, Some [ mkDirEntry "customer.go" false
                (Some ("models", [ mkField "Customer" "created_at";
                                   mkField "Customer" "updated_at" ])) ].

Definition customer_pkgs : gmap string Package :=
  {[ "models" :=
       mkPackage "models"
         {[ "customer.go" := [ mkField "Customer" "created_at";
                               mkField "Customer" "updated_at" ] ]} ]}.


(** A runtime: capacities double, every pattern compiles to a matcher that
    reads a raw text as one db tag, maps are iterated in the order of
    [map_to_list], channels are drained one after the other. *)
Definition double_cap : nat → nat → nat := λ old needed, Nat.max needed (2 * old).
Definition db_matcher : Matcher := λ raw, [[raw; "db"; raw]].
Definition db_compile : string → option Matcher := λ _, Some db_matcher.
Definition listed : ∀ V : Type, gmap string V → list (string * V) :=
  λ V m, map_to_list m.
Definition in_turn : list (list Tag) → list Tag := λ cs, concat cs.

(** A validator with a rule that accepts everything under two tag names, one
    of them dotted; a directory whose one file declares S with one field
    tagged a.b with value c and a with value b.c; and what the pattern
    compiled from the two names finds in that raw tag. *)
Definition accept_all : Processor := λ _, [].
Definition dotted_tag : Tag := mkTag "a.b" "c" "S".
Definition plain_tag : Tag := mkTag "a" "b.c" "S".
Definition dotted_validator : Validator * store :=
  AddProcessor double_cap "a" accept_all
    (AddProcessor double_cap "a.b" accept_all (NewValidator "models", [])).
Definition dotted_raw : string :=
  "a.b:" +:+ quote +:+ "c" +:+ quote +:+ " a:" +:+ quote +:+ "b.c" +:+ quote.
Definition dotted_dir : Env :=
  λ _, Some [ mkDirEntry "s.go" false (Some ("models", [ mkField "S" dotted_raw ])) ].
Definition dotted_matcher : Matcher :=
  λ raw, [ ["a.b:" +:+ quote +:+ "c" +:+ quote; "a.b"; "c"];
           ["a:" +:+ quote +:+ "b.c" +:+ quote; "a"; "b.c"] ].
Definition dotted_compile : string → option Matcher := λ _, Some dotted_matcher.

(** A validator with three rules under db, in an array of four slots, and
    one under the wildcard. *)
Definition aliased_validator : Validator * store :=
  AddProcessor double_cap "*" accept_all
    (AddProcessor double_cap "db" accept_all
       (AddProcessor double_cap "db" accept_all
          (AddProcessor double_cap "db" accept_all (NewValidator "models", [])))).

(** A validator with the default rules under db. *)
Definition db_validator : Validator * store :=
  AddDefaultProcessors double_cap defaultRegexRules ["db"] (NewValidator "models", []).

(** Two db tags of Customer; a validator with the default rules under db and
    the tags created_at, updated_at, created_at of Customer; a second order
    of iteration. *)
Definition created : Tag := mkTag "db" "created_at" "Customer".
Definition updated : Tag := mkTag "db" "updated_at" "Customer".
Definition checked_validator : Validator :=
  mkValidator ∅ (group_tags [created; updated; created])
    (processors db_validator.1) "models" false.
Definition plain_validator : Validator * store :=
  AddProcessor double_cap "db" accept_all (NewValidator "models", []).
Definition run_validator : Validator :=
  mkValidator customer_pkgs (group_tags [created; updated])
    (processors plain_validator.1) "models" false.

(** A schedule of the fan-in on two files, the first with the tags [created]
    and [updated], the second without tags. *)
Definition example_schedule : list action :=
  [Collect 0; Collect 1; Receive 1; Receive 0; Collect 0; Forward 0;
   Arrive; Receive 0; Collect 0; Forward 0; Receive 0; Close; Arrive].

(** * Properties *)

(** ** Strings and matches *)

Example runs_example :
  illegal_runs Char.symbol "ab--c!d" = ["--"; "!"].
Proof. reflexivity. Qed.

Example find_example :
  FindString (NegPlus Char.symbol) "ab--c!d" = "--"
  ∧ FindString (NegEnd Char.alnum) "created_at_" = "_"
  ∧ FindString (NegEnd Char.alnum) "" = ""
  ∧ regexProcessor defaultRegexRules (mkTag "db" "created at" "S") = [].
Proof. repeat split. Qed.

Lemma string_app_cons (c : ascii) (s t : string) :
  String c s +:+ t = String c (s +:+ t).
Proof. reflexivity. Qed.


Lemma string_app_nil_r (s : string) : s +:+ "" = s.
Proof.
  induction s as [|c s IH]; [done | by rewrite string_app_cons, IH].
Qed.

Lemma string_app_assoc (a b c : string) : (a +:+ b) +:+ c = a +:+ (b +:+ c).
Proof.
  induction a as [|x a IH]; [done | by rewrite !string_app_cons, IH].
Qed.

Lemma string_length_pos (s : string) : (0 <? String.length s) = true ↔ s ≠ "".
Proof.
  destruct s; simpl.
  - split; [intros H; discriminate H | congruence].
  - split; [discriminate | done].
Qed.

Lemma find_neg_plus_empty cls s :
  find_neg_plus cls s = "" ↔ ∀ c, c ∈ chars s → cls c = true.
Proof.
  induction s as [|x s IH]; simpl.
  - split; [intros _ c Hc; inversion Hc | done].
  - destruct (cls x) eqn:Hx.
    + rewrite IH. split.
      * intros H c [->|Hc]%elem_of_cons; auto.
      * intros H c Hc. apply H. by right.
    + split; [discriminate |].
      intros H. specialize (H x (list_elem_of_here _ _)). congruence.
Qed.

Lemma find_neg_plus_match cls s :
  find_neg_plus cls s ≠ "" ↔ ∃ c, c ∈ chars s ∧ cls c = false.
Proof.
  rewrite find_neg_plus_empty. split.
  - intros H. induction (chars s) as [|x l IH].
    + exfalso. apply H. intros c Hc. inversion Hc.
    + destruct (cls x) eqn:Hx.
      * destruct IH as (c & Hc & Hcls).
        { intros Hl. apply H. intros c [->|Hc]%elem_of_cons; auto. }
        exists c. split; [by right | done].
      * exists x. split; [by left | done].
  - intros (c & Hc & Hcls) H. specialize (H c Hc). congruence.
Qed.

Lemma find_neg_end_match cls s :
  find_neg_end cls s ≠ "" ↔ ∃ c, last (chars s) = Some c ∧ cls c = false.
Proof.
  induction s as [|x s IH]; simpl.
  - split; [done | intros (c & Hc & _); discriminate Hc].
  - destruct s as [|y s].
    + simpl. destruct (cls x) eqn:Hx.
      * split; [done | intros (c & [= <-] & Hc); congruence].
      * split; [eauto | discriminate].
    + exact IH.
Qed.

(** The first run is what [[^cls]+] finds. *)
Lemma runs_outside_head cls cur s :
  head (runs_outside cls cur s) =
    match cur with
    | EmptyString =>
        match find_neg_plus cls s with
        | EmptyString => None
        | m => Some m
        end
    | _ => Some (cur +:+ span_outside cls s)
    end.
Proof.
  revert cur. induction s as [|x s IH]; intros cur; simpl.
  - destruct cur; simpl; [done | by rewrite string_app_nil_r].
  - destruct (cls x) eqn:Hx.
    + destruct cur; simpl; [apply (IH "") | by rewrite string_app_nil_r].
    + rewrite IH. destruct cur; [done |].
      by rewrite string_app_assoc.
Qed.

Lemma illegal_runs_head cls s :
  head (illegal_runs cls s) =
    match find_neg_plus cls s with
    | EmptyString => None
    | m => Some m
    end.
Proof. apply (runs_outside_head cls ""). Qed.

(** ** The default rules *)

Lemma regex_step_app tag errs rule :
  regex_step tag errs rule = errs ++ rule_errs tag rule.
Proof.
  unfold rule_errs, regex_step. destruct rule as [msg re].
  destruct (0 <? _); [done | by rewrite app_nil_r].
Qed.

Lemma regexProcessor_pair a b tag :
  regexProcessor [a; b] tag = rule_errs tag a ++ rule_errs tag b.
Proof.
  unfold regexProcessor. cbn [foldl]. by rewrite !regex_step_app.
Qed.

Lemma regexProcessor_orders order tag :
  order ≡ₚ defaultRegexRules →
  regexProcessor order tag =
    rule_errs tag (symbols_msg, NegPlus Char.symbol)
      ++ rule_errs tag (ending_msg, NegEnd Char.alnum)
  ∨ regexProcessor order tag =
    rule_errs tag (ending_msg, NegEnd Char.alnum)
      ++ rule_errs tag (symbols_msg, NegPlus Char.symbol).
Proof.
  intros Hp. symmetry in Hp. apply Permutation_length_2_inv in Hp.
  destruct Hp as [-> | ->]; [left | right]; apply regexProcessor_pair.
Qed.

Lemma findings_app msg l1 l2 :
  findings msg (l1 ++ l2) = findings msg l1 ++ findings msg l2.
Proof. apply List.filter_app. Qed.

Lemma findings_rule_same tag msg re :
  findings msg (rule_errs tag (msg, re)) = rule_errs tag (msg, re).
Proof.
  unfold rule_errs, regex_step. destruct (0 <? _); [|done].
  simpl. by rewrite String.eqb_refl.
Qed.

Lemma findings_rule_other tag msg msg' re :
  msg' ≠ msg → findings msg (rule_errs tag (msg', re)) = [].
Proof.
  intros Hne. unfold rule_errs, regex_step. destruct (0 <? _); [|done].
  simpl. by destruct (String.eqb_spec msg' msg).
Qed.

Lemma findings_symbols order tag :
  order ≡ₚ defaultRegexRules →
  findings symbols_msg (regexProcessor order tag) =
    rule_errs tag (symbols_msg, NegPlus Char.symbol).
Proof.
  intros Hp. destruct (regexProcessor_orders order tag Hp) as [-> | ->];
    rewrite findings_app, findings_rule_same,
      (findings_rule_other _ symbols_msg ending_msg) by done;
    [by rewrite app_nil_r | done].
Qed.

Lemma findings_ending order tag :
  order ≡ₚ defaultRegexRules →
  findings ending_msg (regexProcessor order tag) =
    rule_errs tag (ending_msg, NegEnd Char.alnum).
Proof.
  intros Hp. destruct (regexProcessor_orders order tag Hp) as [-> | ->];
    rewrite findings_app, findings_rule_same,
      (findings_rule_other _ ending_msg symbols_msg) by done;
    [done | by rewrite app_nil_r].
Qed.

Lemma rule_errs_flags tag msg re :
  rule_errs tag (msg, re) ≠ [] ↔ FindString re (GetValue tag) ≠ "".
Proof.
  unfold rule_errs, regex_step. rewrite <- string_length_pos.
  destruct (0 <? _); simpl; split; try done.
Qed.

(** C2 (as amended): whatever the order in which the two default patterns
    are visited, the character-set rule reports a tag exactly when its value
    has a byte outside [a-z0-9_, ]: the comma belongs to the allowed class of
    the code, the hyphen does not. *)
Theorem symbols_rule_flags order tag :
  order ≡ₚ defaultRegexRules →
  (flags symbols_msg (regexProcessor order tag)
   ↔ ∃ c, c ∈ chars (GetValue tag) ∧ Char.symbol c = false)
  ∧ Char.symbol "-" = false
  ∧ Char.symbol "," = true.
Proof.
  intros Hp. split; [|done].
  unfold flags. rewrite (findings_symbols _ _ Hp), rule_errs_flags.
  apply find_neg_plus_match.
Qed.

Lemma symbols_rule_flags_witness :
  flags symbols_msg
    (regexProcessor defaultRegexRules (mkTag "db" "created-at" "Customer")).
Proof.
  apply (symbols_rule_flags defaultRegexRules
           (mkTag "db" "created-at" "Customer")); [done |].
  exists "-"%char. split; [|done].
  do 7 apply list_elem_of_further. apply list_elem_of_here.
Defined.

(** C2 as the specification words it fails: a value with a comma has a
    character outside [a-z0-9_ ], and the rule does not report it. *)
Lemma symbols_rule_comma_counterexample :
  (∃ c, c ∈ chars (GetValue (mkTag "json" "name,omitempty" "Customer"))
        ∧ Char.spec_symbol c = false)
  ∧ ¬ flags symbols_msg
        (regexProcessor defaultRegexRules (mkTag "json" "name,omitempty" "Customer")).
Proof.
  split.
  - exists ","%char. split; [|done].
    do 4 apply list_elem_of_further. apply list_elem_of_here.
  - intros H. by apply H.
Qed.

(** C3 (as amended): the character-set rule yields at most one error per
    tag: none when the value has no illegal run, and otherwise exactly one,
    which names the leftmost maximal run. *)
Theorem symbols_rule_one_error order tag :
  order ≡ₚ defaultRegexRules →
  findings symbols_msg (regexProcessor order tag) =
    match illegal_runs Char.symbol (GetValue tag) with
    | [] => []
    | r :: _ =>
        [Errorf symbols_msg [r; GetStructName tag; GetName tag; GetValue tag]]
    end
  ∧ length (findings symbols_msg (regexProcessor order tag)) =
      min 1 (length (illegal_runs Char.symbol (GetValue tag))).
Proof.
  intros Hp. rewrite (findings_symbols _ _ Hp).
  unfold rule_errs, regex_step. cbn [FindString].
  pose proof (illegal_runs_head Char.symbol (GetValue tag)) as Hh.
  destruct (find_neg_plus Char.symbol (GetValue tag)) as [|x m] eqn:Hm;
    destruct (illegal_runs Char.symbol (GetValue tag)) as [|r rs];
    simpl in Hh; try discriminate Hh; [done |].
  injection Hh as ->. done.
Qed.

Lemma symbols_rule_one_error_witness :
  length (findings symbols_msg
            (regexProcessor defaultRegexRules (mkTag "db" "a-b!!c" "Customer"))) =
    min 1 (length (illegal_runs Char.symbol "a-b!!c")).
Proof.
  apply (symbols_rule_one_error defaultRegexRules (mkTag "db" "a-b!!c" "Customer")).
  done.
Defined.

(** C3 as the specification words it fails: two separated illegal runs, one
    error. *)
Lemma symbols_rule_runs_counterexample :
  illegal_runs Char.spec_symbol (GetValue (mkTag "db" "a-b!!c" "Customer")) = ["-"; "!!"]
  ∧ illegal_runs Char.symbol (GetValue (mkTag "db" "a-b!!c" "Customer")) = ["-"; "!!"]
  ∧ findings symbols_msg
      (regexProcessor defaultRegexRules (mkTag "db" "a-b!!c" "Customer")) =
      [Errorf symbols_msg ["-"; "Customer"; "db"; "a-b!!c"]]
  ∧ length (findings symbols_msg
              (regexProcessor defaultRegexRules (mkTag "db" "a-b!!c" "Customer")))
    ≠ length (illegal_runs Char.spec_symbol
                (GetValue (mkTag "db" "a-b!!c" "Customer"))).
Proof. repeat split. discriminate. Qed.

(** C6: whatever the order in which the two default patterns are visited, the
    trailing-character rule reports a tag exactly when its value is not empty
    and its last byte is outside [a-z0-9]; on the empty value the two regex
    rules report nothing and the emptiness rule reports the tag, which it does
    for no other value. *)
Theorem ending_rule_flags order tag :
  order ≡ₚ defaultRegexRules →
  (flags ending_msg (regexProcessor order tag)
   ↔ GetValue tag ≠ ""
     ∧ ∃ c, last (chars (GetValue tag)) = Some c ∧ Char.alnum c = false)
  ∧ (GetValue tag = "" →
     regexProcessor order tag = []
     ∧ emptyProcessor tag = [Errorf empty_msg [GetStructName tag; GetName tag]])
  ∧ (GetValue tag ≠ "" → emptyProcessor tag = []).
Proof.
  intros Hp. split; [|split].
  - unfold flags. rewrite (findings_ending _ _ Hp), rule_errs_flags.
    cbn [FindString]. rewrite find_neg_end_match. split.
    + intros (c & Hc & Hcls). split; [|eauto].
      intros Hv. rewrite Hv in Hc. discriminate Hc.
    + intros [_ H]. exact H.
  - intros Hv. split.
    + destruct (regexProcessor_orders _ tag Hp) as [-> | ->];
        unfold rule_errs, regex_step; cbn [FindString]; by rewrite Hv.
    + unfold emptyProcessor. by rewrite Hv.
  - intros Hv. unfold emptyProcessor. by destruct (GetValue tag).
Qed.

Lemma ending_rule_flags_witness :
  flags ending_msg
    (regexProcessor defaultRegexRules (mkTag "db" "created_at_" "Customer"))
  ∧ emptyProcessor (mkTag "db" "created_at_" "Customer") = [].
Proof.
  pose proof (ending_rule_flags defaultRegexRules
                (mkTag "db" "created_at_" "Customer")) as H.
  destruct H as (Hflag & _ & Hne); [done |].
  split.
  - apply Hflag. split; [done |]. exists "_"%char. by split.
  - by apply Hne.
Defined.

(** ** The scan *)

Lemma modelMap_lookup models k :
  is_Some (modelMap models !! k) ↔ k ∈ model_key <$> models.
Proof.
  unfold modelMap.
  assert (∀ m0 : gmap string bool,
    is_Some (foldl (λ m model, <[model_key model := true]> m) m0 models !! k)
    ↔ is_Some (m0 !! k) ∨ k ∈ model_key <$> models) as Hgen.
  { induction models as [|x models IH]; intros m0; simpl.
    - rewrite elem_of_nil. tauto.
    - rewrite IH, lookup_insert_is_Some, elem_of_cons.
      destruct (decide (model_key x = k)) as [<- | Hne]; [tauto |].
      split; [intros [[? | [_ ?]] | ?] | intros [? | [? | ?]]];
        auto; congruence. }
  rewrite Hgen, lookup_empty. split; [intros [[? [=]]|]; done | auto].
Qed.

Lemma modelMap_size models : (0 <? size (modelMap models)) = bool_decide (models ≠ []).
Proof.
  destruct models as [|x models].
  { unfold modelMap. cbn [foldl]. rewrite map_size_empty.
    by rewrite bool_decide_eq_false_2 by (intros H; by apply H). }
  rewrite bool_decide_eq_true_2 by discriminate.
  apply Nat.ltb_lt.
  destruct (decide (size (modelMap (x :: models)) = 0)) as [Hz | ?]; [|lia].
  apply map_size_empty_iff in Hz.
  assert (is_Some (modelMap (x :: models) !! model_key x)) as Hs.
  { apply modelMap_lookup. rewrite fmap_cons. apply list_elem_of_here. }
  rewrite Hz, lookup_empty in Hs. by destruct Hs.
Qed.

(** The filter, case by case: with no model it accepts the names that are
    not tests; with models it accepts a name that is not a test when it is
    requested, and a test name when it is NOT requested. *)
Lemma fileFilter_cases models fname :
  fileFilter (modelMap models) fname =
    match models with
    | [] => negb (HasSuffix fname "_test.go")
    | _ =>
        if HasSuffix fname "_test.go"
        then negb (bool_decide (requested models fname))
        else bool_decide (requested models fname)
    end.
Proof.
  unfold fileFilter, requested. rewrite modelMap_size.
  destruct models as [|x models].
  { by rewrite bool_decide_eq_false_2 by (intros H; by apply H). }
  rewrite bool_decide_eq_true_2 by discriminate.
  rewrite (bool_decide_ext _ _ (modelMap_lookup (x :: models) (ToLower fname))).
  by destruct (HasSuffix fname "_test.go"), (bool_decide _).
Qed.

Lemma fileFilter_not_test models fname :
  models ≠ [] → HasSuffix fname "_test.go" = false →
  fileFilter (modelMap models) fname = true ↔ requested models fname.
Proof.
  intros Hm Ht. rewrite fileFilter_cases, Ht.
  destruct models as [|x models]; [done |].
  apply (bool_decide_eq_true (requested (x :: models) fname)).
Qed.

Lemma fileFilter_no_models fname :
  fileFilter (modelMap []) fname = true ↔ HasSuffix fname "_test.go" = false.
Proof. rewrite fileFilter_cases. apply negb_true_iff. Qed.

(** C7 at its failing input: with the model Customer requested, the filter
    accepts customer_test.go, a test file that was not requested, and the
    scan of a directory holding customer.go and customer_test.go keeps both
    files; it also turns down a test file that was requested. *)
Theorem fileFilter_unrequested_test :
  HasSuffix "customer_test.go" "_test.go" = true
  ∧ ¬ requested ["Customer"] "customer_test.go"
  ∧ fileFilter (modelMap ["Customer"]) "customer_test.go" = true
  ∧ match getPackages models_dir "models" ["Customer"] with
    | Returned pkgs =>
        (λ pkg, (Files pkg !! "customer.go", Files pkg !! "customer_test.go"))
          <$> pkgs !! "models" = Some (Some [], Some [])
    | Panicked _ => False
    end
  ∧ requested ["Customer_test"] "customer_test.go"
  ∧ fileFilter (modelMap ["Customer_test"]) "customer_test.go" = false.
Proof.
  split; [reflexivity |]. split.
  { apply (bool_decide_eq_false_1 (requested ["Customer"] "customer_test.go")).
    vm_compute. reflexivity. }
  split; [vm_compute; reflexivity |].
  split; [vm_compute; reflexivity |]. split.
  { apply (bool_decide_eq_true_1 (requested ["Customer_test"] "customer_test.go")).
    vm_compute. reflexivity. }
  vm_compute. reflexivity.
Qed.

(** ** Slices and the store *)

Section Slices.

Variable growcap : nat → nat → nat.

Local Abbreviation append := (append growcap).

Lemma nil_slice_ok h : slice_ok h nil_slice.
Proof. split; simpl; lia. Qed.

Lemma elems_nil_slice h : elems h nil_slice = [].
Proof. unfold elems. apply take_0. Qed.

Lemma elems_length h s : slice_ok h s → length (elems h s) = len s.
Proof. intros [Hl _]. unfold elems. rewrite length_take. lia. Qed.

Lemma append_store_length h s xs : length h ≤ length (append h s xs).1.
Proof.
  unfold append. destruct xs as [|x xs]; [done |].
  destruct (_ <=? _); simpl.
  - by rewrite length_insert.
  - rewrite length_app. lia.
Qed.

(** The slice [append] returns shows the old elements, then the new. *)
Lemma append_elems h s xs :
  slice_ok h s →
  elems (append h s xs).1 (append h s xs).2 = elems h s ++ xs.
Proof.
  intros Hok. pose proof (elems_length h s Hok) as Hlen.
  destruct Hok as [Hl Hp].
  unfold append. destruct xs as [|x xs]; [by rewrite app_nil_r |].
  destruct (_ <=? _) eqn:Hfit; unfold elems, backing; simpl.
  - apply Nat.leb_le in Hfit. simpl in Hfit.
    rewrite list_lookup_insert_eq by lia. simpl.
    rewrite app_comm_cons, app_assoc. apply take_app_length'.
    rewrite length_app, length_take. simpl. unfold backing in Hl. lia.
  - rewrite list_lookup_middle by done. simpl.
    apply take_ge. rewrite length_app. unfold elems, backing in Hlen. simpl. lia.
Qed.

(** [append] leaves what another slice shows alone, unless it writes in
    place into the array of that slice below its length. *)
Lemma append_frame h s xs s2 :
  slice_ok h s → slice_ok h s2 →
  (xs ≠ [] → len s + length xs ≤ cap s → ptr s2 = ptr s → len s2 ≤ len s) →
  elems (append h s xs).1 s2 = elems h s2.
Proof.
  intros [Hl Hp] [Hl2 Hp2] Hcond.
  unfold append. destruct xs as [|x xs]; [done |].
  destruct (_ <=? _) eqn:Hfit; unfold elems, backing in *; simpl.
  - apply Nat.leb_le in Hfit.
    destruct (decide (ptr s2 = ptr s)) as [Heq | Hne].
    + specialize (Hcond ltac:(done) Hfit Heq). rewrite Heq in *.
      simpl in Hfit.
      rewrite list_lookup_insert_eq by lia. simpl.
      rewrite take_app_le by (rewrite length_take; lia).
      rewrite take_take. f_equal. lia.
    + by rewrite list_lookup_insert_ne.
  - destruct (decide (ptr s2 < length h)) as [Hlt | Hge].
    + by rewrite lookup_app_l.
    + rewrite (lookup_ge_None_2 h) in * by lia. simpl in Hl2.
      replace (len s2) with 0 by lia. by rewrite !take_0.
Qed.

Lemma append_ok h s xs s2 :
  slice_ok h s2 → slice_ok (append h s xs).1 s2.
Proof.
  intros [Hl2 Hp2]. split.
  - unfold append. destruct xs as [|x xs]; [done |].
    destruct (_ <=? _) eqn:Hfit; unfold backing in *; simpl.
    + destruct (decide (ptr s = ptr s2)) as [Heq | Hne].
      * destruct (decide (ptr s < length h)) as [Hlt | Hge].
        -- rewrite Heq in *. rewrite list_lookup_insert_eq by done. simpl.
           rewrite length_app, length_take. simpl.
           rewrite length_app, length_drop. lia.
        -- rewrite list_insert_ge by lia. done.
      * by rewrite list_lookup_insert_ne.
    + destruct (decide (ptr s2 < length h)) as [Hlt | Hge].
      * by rewrite lookup_app_l.
      * rewrite (lookup_ge_None_2 h) in Hl2 by lia. simpl in Hl2. lia.
  - intros Hc. specialize (Hp2 Hc).
    pose proof (append_store_length h s xs). lia.
Qed.

Lemma append_result_ok h s x :
  slice_ok h s →
  ptr (append h s [x]).2 < length (append h s [x]).1
  ∧ len (append h s [x]).2 ≤ length (backing (append h s [x]).1 (append h s [x]).2).
Proof.
  intros Hok. split.
  - destruct Hok as [Hl Hp]. unfold append.
    destruct (_ <=? _) eqn:Hfit; simpl.
    + apply Nat.leb_le in Hfit. simpl in Hfit. rewrite length_insert. lia.
    + rewrite length_app. simpl. lia.
  - pose proof (append_elems h s [x] Hok) as He.
    apply (f_equal length) in He.
    rewrite length_app, (elems_length h s Hok) in He.
    unfold elems in He. rewrite length_take in He.
    assert (len (append h s [x]).2 = len s + length [x]) as Hn.
    { unfold append. by destruct (_ <=? _). }
    lia.
Qed.

Lemma append_ptr h s x :
  slice_ok h s →
  ptr (append h s [x]).2 = ptr s ∨ ptr (append h s [x]).2 = length h.
Proof.
  intros _. unfold append. destruct (_ <=? _); simpl; auto.
Qed.

Lemma append_in_place h s x :
  ptr (append h s [x]).2 ≠ length h → len s + 1 ≤ cap s.
Proof.
  unfold append. destruct (_ <=? _) eqn:Hfit; simpl.
  - intros _. by apply Nat.leb_le in Hfit.
  - done.
Qed.

End Slices.

(** ** The registry during validation *)

Section Validation.

Variable growcap : nat → nat → nat.
Variable range : ∀ V : Type, gmap string V → list (string * V).


Lemma foldl_processors (t : Tag) errs (ps : list Processor) :
  foldl (λ errs processor, errs ++ processor t) errs ps
  = errs ++ flat_map (λ p : Processor, p t) ps.
Proof.
  revert errs. induction ps as [|p ps IH]; intros errs; simpl.
  - by rewrite app_nil_r.
  - by rewrite IH, app_assoc.
Qed.

Lemma registry_slice_ok procs h k s :
  registry_wf procs h → procs !! k = Some s → slice_ok h s.
Proof.
  intros [Hin _] Hk. destruct (Hin k s Hk) as [Hp Hl]. by split.
Qed.

Lemma registry_default_ok procs h k :
  registry_wf procs h → slice_ok h (default nil_slice (procs !! k)).
Proof.
  intros Hwf. destruct (procs !! k) as [s|] eqn:Hk; simpl.
  - by eapply registry_slice_ok.
  - apply nil_slice_ok.
Qed.

(** The loop body, with its two results named: the duplicate check and the
    slice of executable processors. *)
Lemma validate_tag_unfold v h cache errs t :
  validate_tag growcap v (h, cache, errs) t =
    let dc := if allowDuplicates v then ([], cache)
              else checkForDuplicates t cache in
    let r := match processors v !! AllTags with
             | Some g =>
                 append growcap h (default nil_slice (processors v !! GetName t)) (elems h g)
             | None => (h, default nil_slice (processors v !! GetName t))
             end in
    (r.1, dc.2, (errs ++ dc.1) ++ flat_map (λ p : Processor, p t) (elems r.1 r.2)).
Proof.
  unfold validate_tag.
  destruct (allowDuplicates v); cbn [checkForDuplicates fst snd];
    rewrite ?app_nil_r;
    destruct (processors v !! GetName t) as [s|];
    destruct (processors v !! AllTags) as [g|]; cbn [default];
    try destruct (append growcap h _ (elems h g)) as [h' s'];
    cbn [fst snd]; by rewrite foldl_processors.
Qed.

(** One tag: the errors are those of the duplicate check followed by those
    of the applicable rules; the registry shows the same lists afterwards. *)
Lemma validate_tag_spec v h cache errs t :
  registry_wf (processors v) h →
  ∃ h', validate_tag growcap v (h, cache, errs) t
          = (h', (tag_errors v h cache t).2, errs ++ (tag_errors v h cache t).1)
        ∧ registry_wf (processors v) h'
        ∧ ∀ k, registered v h' k = registered v h k.
Proof.
  intros Hwf. rewrite validate_tag_unfold.
  set (exec := default nil_slice (processors v !! GetName t)).
  assert (slice_ok h exec) as Hexec by by apply registry_default_ok.
  assert (∀ dc : list error * gmap string bool,
             (let '(dups, cache') := dc in
              (dups ++ flat_map (λ p : Processor, p t) (applicable v h t), cache'))
             = (dc.1 ++ flat_map (λ p : Processor, p t) (applicable v h t), dc.2))
    as Hpair by (by intros [??]).
  unfold tag_errors. rewrite Hpair. clear Hpair. cbn [fst snd].
  set (dc := if allowDuplicates v then _ else _).
  destruct (processors v !! AllTags) as [g|] eqn:Hg; cbn zeta.
  - set (r := append growcap h exec (elems h g)).
    assert (∀ k s, processors v !! k = Some s → elems r.1 s = elems h s) as Hframe.
    { intros k s Hk. apply append_frame; [done | by eapply registry_slice_ok |].
      intros Hne Hfit Hptr. subst exec.
      destruct (processors v !! GetName t) as [s1|] eqn:Hn; simpl in *.
      - destruct Hwf as [_ Hinj].
        rewrite (Hinj _ _ _ _ Hk Hn Hptr) in Hk. by simplify_eq.
      - destruct (elems h g); [done | simpl in Hfit; lia]. }
    exists r.1. split; [|split].
    + f_equal. rewrite <- app_assoc. do 2 f_equal.
      unfold r. rewrite append_elems by done.
      unfold applicable, registered. by rewrite Hg.
    + destruct Hwf as [Hin Hinj]. split; [|done].
      intros k s Hk. destruct (Hin k s Hk) as [Hp Hl].
      pose proof (append_store_length growcap h exec (elems h g)).
      split; [fold r in H; lia |].
      apply (append_ok growcap h exec (elems h g) s). by split.
    + intros k. unfold registered.
      destruct (processors v !! k) as [s|] eqn:Hk; simpl.
      * by eapply Hframe.
      * by rewrite !elems_nil_slice.
  - exists h. split; [|done]. cbn [fst snd].
    f_equal. rewrite <- app_assoc. do 2 f_equal.
    unfold applicable, registered. rewrite Hg. simpl.
    by rewrite elems_nil_slice, app_nil_r.
Qed.

Lemma tag_errors_ext v h h' cache t :
  (∀ k, registered v h' k = registered v h k) →
  tag_errors v h' cache t = tag_errors v h cache t.
Proof.
  intros Heq. unfold tag_errors, applicable. by rewrite !Heq.
Qed.

Lemma run_errors_ext v h h' cache ts :
  (∀ k, registered v h' k = registered v h k) →
  run_errors v h' cache ts = run_errors v h cache ts.
Proof.
  intros Heq. revert cache. induction ts as [|t ts IH]; intros cache; simpl.
  - done.
  - by rewrite (tag_errors_ext _ _ _ _ _ Heq), IH.
Qed.

(** A sequence of tags. *)
Lemma validate_tags_spec v ts h cache errs :
  registry_wf (processors v) h →
  ∃ h' cache',
    foldl (validate_tag growcap v) (h, cache, errs) ts
      = (h', cache', errs ++ run_errors v h cache ts)
    ∧ registry_wf (processors v) h'
    ∧ ∀ k, registered v h' k = registered v h k.
Proof.
  revert h cache errs. induction ts as [|t ts IH]; intros h cache errs Hwf.
  - exists h, cache. simpl. by rewrite app_nil_r.
  - destruct (validate_tag_spec v h cache errs t Hwf) as (h1 & Hstep & Hwf1 & Hreg1).
    cbn [foldl]. rewrite Hstep.
    destruct (IH h1 (tag_errors v h cache t).2 (errs ++ (tag_errors v h cache t).1) Hwf1)
      as (h2 & cache2 & Hrest & Hwf2 & Hreg2).
    exists h2, cache2. split; [|split].
    + rewrite Hrest. f_equal. cbn [run_errors].
      by rewrite (run_errors_ext _ _ _ _ _ Hreg1), app_assoc.
    + done.
    + intros k. by rewrite Hreg2, Hreg1.
Qed.

Lemma validate_loop_flat v visit st :
  validate_loop growcap v visit st = foldl (validate_tag growcap v) st (concat visit.*2).
Proof.
  unfold validate_loop.
  revert st. induction visit as [|[k fields] visit IH]; intros st; simpl.
  - done.
  - by rewrite foldl_app, IH.
Qed.

Lemma validate_empty v h :
  size (tags v) = 0 → validate growcap range v h = (h, [no_tags]).
Proof. intros Hz. unfold validate. by rewrite Hz. Qed.

Lemma validate_spec v h :
  registry_wf (processors v) h → size (tags v) ≠ 0 →
  ∃ h', validate growcap range v h = (h', run_errors v h ∅ (processed range v))
        ∧ registry_wf (processors v) h'
        ∧ ∀ k, registered v h' k = registered v h k.
Proof.
  intros Hwf Hnz. unfold validate.
  destruct (Nat.eqb_spec (size (tags v)) 0) as [? | _]; [done |].
  fold (validate_loop growcap v (range _ (tags v)) (h, ∅, [])).
  rewrite validate_loop_flat.
  destruct (validate_tags_spec v (processed range v) h ∅ [] Hwf)
    as (h' & cache' & Hrun & Hwf' & Hreg).
  unfold processed in Hrun. rewrite Hrun. by exists h'.
Qed.

Lemma validate_keeps_registry v h :
  registry_wf (processors v) h →
  registry_wf (processors v) (validate growcap range v h).1
  ∧ ∀ k, registered v (validate growcap range v h).1 k = registered v h k.
Proof.
  intros Hwf. destruct (decide (size (tags v) = 0)) as [Hz | Hnz].
  - by rewrite validate_empty.
  - destruct (validate_spec v h Hwf Hnz) as (h' & -> & ? & ?). done.
Qed.

End Validation.

(** ** Registries the exported functions build *)

Section Registration.

Variable growcap : nat → nat → nat.

Lemma AddProcessor_unfold tag p v h :
  AddProcessor growcap tag p (v, h) =
    let r := append growcap h (default nil_slice (processors v !! tag)) [p] in
    (mkValidator (packages v) (tags v) (<[tag := r.2]> (processors v)) (path v)
       (allowDuplicates v), r.1).
Proof.
  unfold AddProcessor. by destruct (append growcap h _ [p]) as [h' s'].
Qed.

Lemma AddProcessor_wf tag p st :
  registry_wf (processors st.1) st.2 →
  registry_wf (processors (AddProcessor growcap tag p st).1)
              (AddProcessor growcap tag p st).2.
Proof.
  destruct st as [v h]. cbn [fst snd]. intros Hwf.
  rewrite AddProcessor_unfold. cbn [fst snd processors].
  set (s0 := default nil_slice (processors v !! tag)).
  assert (slice_ok h s0) as Hs0 by by apply registry_default_ok.
  set (r := append growcap h s0 [p]).
  pose proof (append_result_ok growcap h s0 p Hs0) as [Hrp Hrl]. fold r in Hrp, Hrl.
  pose proof (append_store_length growcap h s0 [p]) as Hgrow. fold r in Hgrow.
  assert (∀ k s, k ≠ tag → processors v !! k = Some s → ptr s ≠ ptr r.2) as Hfresh.
  { intros k s Hk Hs Hptr. destruct Hwf as [Hin Hinj].
    destruct (Hin k s Hs) as [Hlt _].
    destruct (decide (ptr r.2 = length h)) as [Heq | Hne]; [lia |].
    pose proof (append_in_place growcap h s0 p Hne) as Hfit.
    destruct (append_ptr growcap h s0 p Hs0) as [Hsame | ?]; [|done].
    fold r in Hsame. subst s0.
    destruct (processors v !! tag) as [s1|] eqn:Htag; simpl in *.
    - apply Hk. eapply Hinj; [exact Hs | exact Htag | congruence].
    - lia. }
  split.
  - intros k s Hk. apply lookup_insert_Some in Hk as [[<- <-] | [Hne Hk]]; [done |].
    destruct Hwf as [Hin _]. destruct (Hin k s Hk) as [Hlt Hl].
    split; [lia |].
    apply (append_ok growcap h s0 [p] s). by split.
  - intros k1 k2 s1 s2 H1 H2 Hptr.
    apply lookup_insert_Some in H1 as [[<- <-] | [Hne1 H1]];
      apply lookup_insert_Some in H2 as [[<- <-] | [Hne2 H2]]; try done.
    + exfalso. by eapply Hfresh.
    + exfalso. by eapply Hfresh.
    + destruct Hwf as [_ Hinj]. by eapply Hinj.
Qed.

(** Registration order is kept: the new processor comes last under its key,
    and the other keys show what they showed. *)
Lemma AddProcessor_registered tag p v h k :
  registry_wf (processors v) h →
  registered (AddProcessor growcap tag p (v, h)).1
             (AddProcessor growcap tag p (v, h)).2 k
  = if decide (k = tag) then registered v h tag ++ [p] else registered v h k.
Proof.
  intros Hwf. rewrite AddProcessor_unfold. cbn [fst snd].
  unfold registered. cbn [processors].
  set (s0 := default nil_slice (processors v !! tag)).
  assert (slice_ok h s0) as Hs0 by by apply registry_default_ok.
  destruct (decide (k = tag)) as [-> | Hne].
  - rewrite lookup_insert_eq. exact (append_elems growcap h s0 [p] Hs0).
  - rewrite lookup_insert_ne by done.
    apply append_frame; [done | by apply registry_default_ok |].
    intros _ Hfit Hptr.
    destruct (processors v !! k) as [s|] eqn:Hk; simpl in *; [|lia].
    subst s0. destruct (processors v !! tag) as [s1|] eqn:Htag; simpl in *.
    + destruct Hwf as [_ Hinj]. by destruct (Hne (Hinj _ _ _ _ Hk Htag Hptr)).
    + lia.
Qed.

Lemma AddDefaultProcessors_wf order tags st :
  registry_wf (processors st.1) st.2 →
  registry_wf (processors (AddDefaultProcessors growcap order tags st).1)
              (AddDefaultProcessors growcap order tags st).2.
Proof.
  unfold AddDefaultProcessors.
  generalize (match tags with [] => [AllTags] | _ => tags end).
  intros l. revert st. induction l as [|tagStr l IH]; intros st Hwf; simpl.
  - done.
  - apply IH. by do 2 apply AddProcessor_wf.
Qed.

Lemma built_wf st : built growcap st → registry_wf (processors st.1) st.2.
Proof.
  induction 1 as [p h | b v h _ IH | tag p st _ IH | order tags st _ IH].
  - split; intros *; simpl; by rewrite lookup_empty.
  - done.
  - by apply AddProcessor_wf.
  - by apply AddDefaultProcessors_wf.
Qed.

End Registration.

(** ** The duplicate check along a run *)

Lemma cache_after_lookup cache ts k :
  is_Some (cache_after cache ts !! k)
  ↔ is_Some (cache !! k) ∨ k ∈ cacheKey <$> ts.
Proof.
  unfold cache_after. revert cache.
  induction ts as [|t ts IH]; intros cache; simpl.
  - rewrite elem_of_nil. tauto.
  - rewrite IH, lookup_insert_is_Some, elem_of_cons.
    destruct (decide (cacheKey t = k)) as [<- | Hne]; [tauto |].
    split; [intros [[? | [_ ?]] | ?] | intros [? | [? | ?]]]; auto; congruence.
Qed.


Lemma duplicate_findings_app cache ts1 ts2 :
  duplicate_findings cache (ts1 ++ ts2) =
    duplicate_findings cache ts1 ++ duplicate_findings (cache_after cache ts1) ts2.
Proof.
  revert cache. induction ts1 as [|t ts1 IH]; intros cache; simpl.
  - done.
  - by rewrite IH, app_assoc.
Qed.

Lemma duplicate_findings_nil cache ts :
  duplicate_findings cache ts = [] ↔
    NoDup (cacheKey <$> ts) ∧ ∀ t, t ∈ ts → cache !! cacheKey t = None.
Proof.
  revert cache. induction ts as [|t ts IH]; intros cache; simpl.
  - split; [intros _; split; [constructor | intros t Ht; inversion Ht] | done].
  - rewrite NoDup_cons.
    destruct (cache !! cacheKey t) as [b|] eqn:Hc.
    + rewrite bool_decide_eq_true_2 by eauto. split; [discriminate |].
      intros [_ Hall]. specialize (Hall t (list_elem_of_here _ _)). congruence.
    + rewrite bool_decide_eq_false_2 by (by intros [? ?]).
      cbn [app]. rewrite IH. split.
      * intros [Hnd Hall]. split; [split; [|done] |].
        -- intros (t' & Hk & Ht')%list_elem_of_fmap.
           specialize (Hall t' Ht'). rewrite <- Hk, lookup_insert_eq in Hall.
           discriminate.
        -- intros t' [-> | Ht']%elem_of_cons; [done |].
           specialize (Hall t' Ht').
           apply lookup_insert_None in Hall. tauto.
      * intros [[Hnin Hnd] Hall]. split; [done |].
        intros t' Ht'. apply lookup_insert_None. split.
        -- apply Hall. by right.
        -- intros Heq. apply Hnin. rewrite Heq. by apply list_elem_of_fmap_2.
Qed.








(** C1 at its failing input: one field of the struct S carries the tag a.b
    with value c and the tag a with value b.c, two different triples with one
    joined key; with duplicates not allowed the run processes the two tags
    and reports the second as a duplicate although its triple occurs once. *)
Theorem duplicate_first_occurrence_reported :
  dotted_tag ≠ plain_tag
  ∧ cacheKey dotted_tag = cacheKey plain_tag
  ∧ allowDuplicates dotted_validator.1 = false
  ∧ match Run double_cap dotted_compile listed in_turn [] dotted_dir dotted_validator with
    | Returned (v', _, errs) =>
        processed listed v' = [dotted_tag; plain_tag]
        ∧ errs = [duplicate_error plain_tag]
    | Panicked _ => False
    end.
Proof.
  split; [discriminate |]. split; [reflexivity |]. split; [reflexivity |].
  vm_compute. split; reflexivity.
Qed.

(** C9: the cache key is the struct name, the tag name and the value joined
    by dots; two different tags whose joined keys are equal are not told
    apart: in a run of the one then the other, the first is not reported and
    the second is reported as a duplicate. *)
Theorem joined_key_collision t1 t2 :
  t1 ≠ t2 → cacheKey t1 = cacheKey t2 →
  cacheKey t2 = structName t2 +:+ "." +:+ name t2 +:+ "." +:+ value t2
  ∧ (checkForDuplicates t1 ∅).1 = []
  ∧ (checkForDuplicates t2 (checkForDuplicates t1 ∅).2).1 = [duplicate_error t2]
  ∧ duplicate_findings ∅ [t1; t2] = [duplicate_error t2].
Proof.
  intros _ Hkey.
  assert ((checkForDuplicates t1 ∅).1 = []) as H1.
  { unfold checkForDuplicates. cbn [fst]. rewrite lookup_empty.
    by rewrite bool_decide_eq_false_2 by (by intros [? ?]). }
  assert ((checkForDuplicates t2 (checkForDuplicates t1 ∅).2).1 = [duplicate_error t2])
    as H2.
  { unfold checkForDuplicates. cbn [fst snd]. rewrite Hkey, lookup_insert_eq.
    by rewrite bool_decide_eq_true_2 by eauto. }
  split; [reflexivity |]. split; [done |]. split; [done |].
  cbn [duplicate_findings]. by rewrite H1, H2.
Qed.

Lemma joined_key_collision_witness :
  mkTag "c" "d" "a.b" ≠ mkTag "b.c" "d" "a"
  ∧ cacheKey (mkTag "c" "d" "a.b") = "a.b.c.d"
  ∧ cacheKey (mkTag "b.c" "d" "a") = "a.b.c.d"
  ∧ duplicate_findings ∅ [mkTag "c" "d" "a.b"; mkTag "b.c" "d" "a"]
    = [duplicate_error (mkTag "b.c" "d" "a")].
Proof.
  split; [discriminate |]. split; [reflexivity |]. split; [reflexivity |].
  apply (joined_key_collision (mkTag "c" "d" "a.b") (mkTag "b.c" "d" "a"));
    [discriminate | reflexivity].
Defined.

(** ** Fan-in and grouping *)





Lemma group_tags_fold_nonempty (m0 : gmap string (list Tag)) arrived :
  (∀ k ts, m0 !! k = Some ts → ts ≠ []) →
  ∀ k ts,
    foldl (λ tags tag,
             <[structName tag := default [] (tags !! structName tag) ++ [tag]]> tags)
          m0 arrived !! k = Some ts →
    ts ≠ [].
Proof.
  revert m0. induction arrived as [|t arrived IH]; intros m0 Hm0; simpl; [done |].
  apply IH. intros k ts [[_ <-] | [_ Hk]]%lookup_insert_Some.
  - intros [_ [=]]%app_nil.
  - by eapply Hm0.
Qed.

Lemma group_tags_fold_inhabited (m0 : gmap string (list Tag)) arrived :
  m0 ≠ ∅ ∨ arrived ≠ [] →
  foldl (λ tags tag,
           <[structName tag := default [] (tags !! structName tag) ++ [tag]]> tags)
        m0 arrived ≠ ∅.
Proof.
  revert m0. induction arrived as [|t arrived IH]; intros m0 Hor; simpl.
  - by destruct Hor.
  - apply IH. left. apply insert_non_empty.
Qed.

Lemma group_tags_nonempty arrived k ts :
  group_tags arrived !! k = Some ts → ts ≠ [].
Proof.
  apply group_tags_fold_nonempty. intros k' ts'. by rewrite lookup_empty.
Qed.

Lemma group_tags_size arrived : size (group_tags arrived) = 0 ↔ arrived = [].
Proof.
  rewrite map_size_empty_iff. split.
  - intros He. destruct arrived as [|t arrived]; [done |].
    exfalso. revert He. apply group_tags_fold_inhabited. by right.
  - by intros ->.
Qed.


(** ** What validation writes in the store *)

Section StoreFrame.

Variable growcap : nat → nat → nat.
Variable range : ∀ V : Type, gmap string V → list (string * V).

(** [append] writes in place at the address of its slice, or allocates. *)
Lemma append_store_lookup h s xs p :
  p < length h →
  (xs ≠ [] → len s + length xs ≤ cap s → p ≠ ptr s) →
  (append growcap h s xs).1 !! p = h !! p.
Proof.
  intros Hp Hne. unfold append. destruct xs as [|x xs]; [done |].
  destruct (_ <=? _) eqn:Hfit; simpl.
  - apply Nat.leb_le in Hfit. apply list_lookup_insert_ne.
    intros Heq. by apply (Hne ltac:(done) Hfit).
  - by apply lookup_app_l.
Qed.

Lemma validate_tag_store_length v st t :
  length st.1.1 ≤ length (validate_tag growcap v st t).1.1.
Proof.
  destruct st as [[h cache] errs]. rewrite validate_tag_unfold. cbn [fst].
  destruct (processors v !! AllTags) as [g|]; [|done].
  apply append_store_length.
Qed.

Lemma validate_tag_store v st t p :
  p < length st.1.1 →
  (∀ k s, processors v !! k = Some s → ptr s ≠ p) →
  (validate_tag growcap v st t).1.1 !! p = st.1.1 !! p.
Proof.
  destruct st as [[h cache] errs]. cbn [fst]. intros Hp Hfree.
  rewrite validate_tag_unfold. cbn [fst].
  destruct (processors v !! AllTags) as [g|]; [|done].
  apply append_store_lookup; [done |].
  intros Hne Hfit Heq.
  destruct (processors v !! GetName t) as [s|] eqn:Hs; simpl in *.
  - by apply (Hfree _ _ Hs).
  - destruct (elems h g); [done | simpl in Hfit; lia].
Qed.

Lemma validate_tags_store_length v ts st :
  length st.1.1 ≤ length (foldl (validate_tag growcap v) st ts).1.1.
Proof.
  revert st. induction ts as [|t ts IH]; intros st; [done |].
  cbn [foldl]. pose proof (validate_tag_store_length v st t).
  specialize (IH (validate_tag growcap v st t)). lia.
Qed.

Lemma validate_tags_store v ts st p :
  p < length st.1.1 →
  (∀ k s, processors v !! k = Some s → ptr s ≠ p) →
  (foldl (validate_tag growcap v) st ts).1.1 !! p = st.1.1 !! p.
Proof.
  revert st. induction ts as [|t ts IH]; intros st Hp Hfree; [done |].
  cbn [foldl]. pose proof (validate_tag_store_length v st t).
  rewrite IH by (done || lia). by apply validate_tag_store.
Qed.

(** Validation never shrinks the store, and writes to it only in the arrays
    of registered slices and in arrays it allocates. *)
Lemma validate_store_length v h :
  length h ≤ length (validate growcap range v h).1.
Proof.
  unfold validate. destruct (size (tags v) =? 0); [done |].
  fold (validate_loop growcap v (range _ (tags v)) (h, ∅, [])).
  rewrite validate_loop_flat.
  pose proof (validate_tags_store_length v (concat (range _ (tags v)).*2) (h, ∅, []))
    as Hst.
  by destruct (foldl _ _ _) as [[h' c'] e'].
Qed.

Lemma validate_store v h p :
  p < length h →
  (∀ k s, processors v !! k = Some s → ptr s ≠ p) →
  (validate growcap range v h).1 !! p = h !! p.
Proof.
  intros Hp Hfree. unfold validate. destruct (size (tags v) =? 0); [done |].
  fold (validate_loop growcap v (range _ (tags v)) (h, ∅, [])).
  rewrite validate_loop_flat.
  pose proof (validate_tags_store v (concat (range _ (tags v)).*2) (h, ∅, []) p Hp Hfree)
    as Hst.
  by destruct (foldl _ _ _) as [[h' c'] e'].
Qed.

End StoreFrame.

(** ** Runs *)

Section Runs.

Variable growcap : nat → nat → nat.
Variable compile : string → option Matcher.
Variable range : ∀ V : Type, gmap string V → list (string * V).
Variable multiplex : list (list Tag) → list Tag.

(** The fan-in delivers an interleaving of its channels, and a map is
    iterated in some order of its entries. *)
Hypothesis multiplex_interleaves : ∀ cs, Interleaving cs (multiplex cs).
Hypothesis range_permutes : ∀ V (m : gmap string V), range V m ≡ₚ map_to_list m.


(** C5 (as amended): with an empty registry, a run whose package scan
    returns gives back the configuration error alone; it compiles no
    pattern, extracts and validates nothing, and leaves the store and the
    tags of the validator as they were. *)
Theorem Run_empty_registry models env v h pkgs :
  processors v = ∅ →
  getPackages env (path v) models = Returned pkgs →
  Run growcap compile range multiplex models env (v, h)
  = Returned (mkValidator pkgs (tags v) (processors v) (path v) (allowDuplicates v),
              h, [no_processors]).
Proof using Type.
  intros Hempty Hscan. unfold Run. rewrite Hscan. cbn [processors].
  by rewrite Hempty, map_size_empty.
Qed.

(** C10: the scan comes first.  With an empty registry and a path where the
    scan finds no package, the run panics with the panic of the scan; it
    does not return the configuration error. *)
Theorem Run_scan_panics_first models env v h :
  processors v = ∅ →
  no_packages env (path v) models →
  ∃ e, getPackages env (path v) models = Panicked e
       ∧ Run growcap compile range multiplex models env (v, h) = Panicked e
       ∧ ∀ r, Run growcap compile range multiplex models env (v, h) ≠ Returned r.
Proof using Type.
  intros _ Hnone. unfold no_packages in Hnone.
  assert (∃ e, getPackages env (path v) models = Panicked e) as [e He].
  { unfold getPackages.
    destruct (ParseDir env (path v) (fileFilter (modelMap models))) as [pkgs [err|]].
    - eauto.
    - simpl in Hnone. rewrite Hnone, map_size_empty. eauto. }
  exists e. unfold Run. rewrite He. by repeat split.
Qed.

(** C8 (as amended): a run that returns leaves the registry as it found it:
    the same keys with the same slice headers, each showing the same rules in
    the same order; the path and the duplicates flag are untouched too.
    Besides the cache and the error list, validation does write to the store
    of the rule lists, but only in the array of a registered slice beyond the
    length of that slice, or in an array it allocates: the store does not
    shrink, and an array that no registered slice points to is left as it
    was. *)
Theorem Run_keeps_registry models env v h v' h' errs :
  registry_wf (processors v) h →
  Run growcap compile range multiplex models env (v, h) = Returned (v', h', errs) →
  processors v' = processors v
  ∧ path v' = path v
  ∧ allowDuplicates v' = allowDuplicates v
  ∧ (∀ k, registered v' h' k = registered v h k)
  ∧ (∀ k, length (registered v' h' k) = length (registered v h k))
  ∧ registry_wf (processors v') h'
  ∧ length h ≤ length h'
  ∧ (∀ p, p < length h →
          (∀ k s, processors v !! k = Some s → ptr s ≠ p) →
          h' !! p = h !! p).
Proof using Type.
  intros Hwf Hrun. unfold Run in Hrun.
  destruct (getPackages env (path v) models) as [pkgs | e]; [|discriminate].
  cbn [processors packages tags path allowDuplicates] in Hrun.
  destruct (size (processors v) =? 0).
  { injection Hrun as <- <- <-. do 6 (split; [done |]). split; [lia | done]. }
  destruct (getTags compile range multiplex _ pkgs) as [found | e]; [|discriminate].
  set (v2 := mkValidator pkgs found (processors v) (path v) (allowDuplicates v)) in *.
  pose proof (validate_keeps_registry growcap range v2 h Hwf) as [Hwf' Hreg].
  pose proof (validate_store growcap range v2 h) as Hstore.
  pose proof (validate_store_length growcap range v2 h) as Hlen.
  destruct (validate growcap range v2 h) as [h2 errs2].
  injection Hrun as <- <- <-. cbn [fst] in *.
  split; [done |]. split; [done |]. split; [done |].
  split; [exact Hreg |]. split; [by intros k; rewrite Hreg |].
  split; [exact Hwf' |]. split; [exact Hlen |].
  intros p Hp Hfree. by apply Hstore.
Qed.


End Runs.

(** ** The example runtime and the example runs *)

Lemma listed_permutes V (m : gmap string V) : listed V m ≡ₚ map_to_list m.
Proof. reflexivity. Qed.


Lemma db_validator_built : built double_cap db_validator.
Proof. apply built_default, built_new. Qed.

Lemma db_validator_wf : registry_wf (processors db_validator.1) db_validator.2.
Proof. apply (built_wf double_cap), db_validator_built. Qed.

Lemma Run_empty_registry_witness :
  Run double_cap db_compile listed in_turn [] customer_dir (NewValidator "models", [])
  = Returned (mkValidator customer_pkgs ∅ ∅ "models" false, [], [no_processors]).
Proof.
  apply (Run_empty_registry double_cap db_compile listed in_turn []
           customer_dir (NewValidator "models") [] customer_pkgs).
  - reflexivity.
  - vm_compute. reflexivity.
Defined.

(** C5 as the specification words it fails: with an empty registry and a
    directory without packages the run panics and returns nothing. *)
Lemma Run_empty_registry_counterexample :
  processors (NewValidator "models") = ∅
  ∧ Run double_cap db_compile listed in_turn [] empty_dir (NewValidator "models", [])
    = Panicked (no_structs "models")
  ∧ ∀ r, Run double_cap db_compile listed in_turn [] empty_dir
           (NewValidator "models", []) ≠ Returned r.
Proof.
  split; [reflexivity |]. split; [vm_compute; reflexivity |].
  intros r. vm_compute. discriminate.
Qed.

Lemma Run_scan_panics_first_witness :
  ∃ e, getPackages empty_dir "models" [] = Panicked e
       ∧ Run double_cap db_compile listed in_turn [] empty_dir
           (NewValidator "models", []) = Panicked e
       ∧ ∀ r, Run double_cap db_compile listed in_turn [] empty_dir
                (NewValidator "models", []) ≠ Returned r.
Proof.
  apply (Run_scan_panics_first double_cap db_compile listed in_turn []
           empty_dir (NewValidator "models") []).
  - reflexivity.
  - vm_compute. reflexivity.
Defined.

Lemma aliased_validator_wf :
  registry_wf (processors aliased_validator.1) aliased_validator.2.
Proof. apply (built_wf double_cap). do 4 apply built_add. apply built_new. Qed.

Lemma Run_keeps_registry_witness :
  ∃ v' h',
    Run double_cap db_compile listed in_turn [] customer_dir aliased_validator
    = Returned (v', h', [])
    ∧ processors v' = processors aliased_validator.1
    ∧ (∀ k, registered v' h' k = registered aliased_validator.1 aliased_validator.2 k)
    ∧ length aliased_validator.2 ≤ length h'.
Proof.
  destruct (Run double_cap db_compile listed in_turn [] customer_dir aliased_validator)
    as [[[v' h'] errs] | e] eqn:Hrun.
  - assert (errs = []) as ->.
    { vm_compute in Hrun. by injection Hrun as _ _ <-. }
    exists v', h'. split; [reflexivity |].
    destruct (Run_keeps_registry double_cap db_compile listed in_turn []
                customer_dir aliased_validator.1 aliased_validator.2 v' h' []
                aliased_validator_wf Hrun) as (Hp & _ & _ & Hreg & _ & _ & Hlen & _).
    by repeat split.
  - vm_compute in Hrun. discriminate Hrun.
Defined.

(** C8 as the specification words it fails: with three rules under db in an
    array of four slots and one rule under the wildcard, validation of a db
    tag appends the wildcard rule in place, in the fourth slot of the array
    of the registered db slice: the cache and the error list are not all it
    writes. *)
Lemma Run_writes_registered_array_counterexample :
  processors aliased_validator.1 !! "db" = Some (mkSlice 2 3 4)
  ∧ length <$> aliased_validator.2 = [1; 2; 3; 1]
  ∧ match Run double_cap db_compile listed in_turn [] customer_dir
            aliased_validator with
    | Returned (v', h', errs) =>
        length <$> h' = [1; 2; 4; 1] ∧ h' ≠ aliased_validator.2
    | Panicked _ => False
    end.
Proof.
  split; [vm_compute; reflexivity |]. split; [vm_compute; reflexivity |].
  vm_compute. split; [reflexivity |]. discriminate.
Qed.



(** * Further properties of the code *)

(** ** Registration *)

Section RegistrationOrder.

Variable growcap : nat → nat → nat.

Lemma default_step_registered order tagStr v h k :
  registry_wf (processors v) h →
  registered
    (AddProcessor growcap tagStr emptyProcessor
       (AddProcessor growcap tagStr (regexProcessor order) (v, h))).1
    (AddProcessor growcap tagStr emptyProcessor
       (AddProcessor growcap tagStr (regexProcessor order) (v, h))).2 k
  = registered v h k ++ (if decide (tagStr = k) then default_rules order else []).
Proof.
  intros Hwf.
  pose proof (AddProcessor_wf growcap tagStr (regexProcessor order) (v, h) Hwf) as Hwf1.
  pose proof (AddProcessor_registered growcap tagStr (regexProcessor order) v h)
    as Hreg1.
  destruct (AddProcessor growcap tagStr (regexProcessor order) (v, h)) as [v1 h1].
  cbn [fst snd] in *.
  rewrite (AddProcessor_registered growcap tagStr emptyProcessor v1 h1 k Hwf1).
  destruct (decide (k = tagStr)) as [-> | Hne].
  - rewrite (Hreg1 tagStr Hwf), !decide_True by done.
    by rewrite <- app_assoc.
  - rewrite (Hreg1 k Hwf), !decide_False by done. by rewrite app_nil_r.
Qed.

Lemma default_fold_registered order names st k :
  registry_wf (processors st.1) st.2 →
  registered
    (foldl (λ st tagStr,
              AddProcessor growcap tagStr emptyProcessor
                (AddProcessor growcap tagStr (regexProcessor order) st)) st names).1
    (foldl (λ st tagStr,
              AddProcessor growcap tagStr emptyProcessor
                (AddProcessor growcap tagStr (regexProcessor order) st)) st names).2 k
  = registered st.1 st.2 k
      ++ flat_map (λ tagStr, if decide (tagStr = k) then default_rules order else [])
           names.
Proof.
  revert st. induction names as [|tagStr names IH]; intros st Hwf.
  - simpl. by rewrite app_nil_r.
  - cbn [foldl flat_map]. rewrite IH.
    + destruct st as [v h]. cbn [fst snd] in *.
      by rewrite default_step_registered, app_assoc.
    + by do 2 apply AddProcessor_wf.
Qed.


(** X2: AddDefaultProcessors appends, under each given tag name and once per
    mention of it, the regex rule followed by the emptiness rule; given no
    name it does so under the wildcard; the lists of the other names keep
    what they had. *)
Theorem AddDefaultProcessors_registers order tags v h k :
  registry_wf (processors v) h →
  registered (AddDefaultProcessors growcap order tags (v, h)).1
             (AddDefaultProcessors growcap order tags (v, h)).2 k
  = registered v h k
      ++ flat_map (λ tagStr, if decide (tagStr = k) then default_rules order else [])
           (default_names tags).
Proof.
  intros Hwf.
  exact (default_fold_registered order (default_names tags) (v, h) k Hwf).
Qed.

End RegistrationOrder.

Lemma new_validator_wf p h : registry_wf (processors (NewValidator p)) h.
Proof. apply (built_wf double_cap (NewValidator p, h)), built_new. Qed.


Lemma AddDefaultProcessors_registers_witness :
  registered
    (AddDefaultProcessors double_cap defaultRegexRules [] (NewValidator "models", [])).1
    (AddDefaultProcessors double_cap defaultRegexRules [] (NewValidator "models", [])).2
    AllTags
  = [regexProcessor defaultRegexRules; emptyProcessor].
Proof.
  rewrite (AddDefaultProcessors_registers double_cap defaultRegexRules []
             (NewValidator "models") [] AllTags (new_validator_wf "models" [])).
  reflexivity.
Defined.

(** ** The default rules together *)

Lemma rule_errs_nil tag msg re :
  rule_errs tag (msg, re) = [] ↔ FindString re (GetValue tag) = "".
Proof.
  unfold rule_errs, regex_step.
  destruct (0 <? String.length (FindString re (GetValue tag))) eqn:Hpos.
  - apply string_length_pos in Hpos. split; [discriminate | done].
  - split; [intros _ | done].
    destruct (FindString re (GetValue tag)); [done | discriminate Hpos].
Qed.

Lemma rule_errs_length tag rule : length (rule_errs tag rule) ≤ 1.
Proof.
  unfold rule_errs, regex_step. destruct rule as [msg re].
  destruct (0 <? _); simpl; lia.
Qed.

Lemma find_neg_end_empty cls s :
  find_neg_end cls s = "" ↔
    s = "" ∨ ∃ c, last (chars s) = Some c ∧ cls c = true.
Proof.
  induction s as [|x s IH]; simpl.
  - split; [by left | done].
  - destruct s as [|y s].
    + simpl. destruct (cls x) eqn:Hx.
      * split; [right; eauto | done].
      * split; [discriminate |].
        intros [[=] | (c & [= <-] & Hc)]. congruence.
    + rewrite IH. split.
      * intros [[=] | H]. by right.
      * intros [[=] | H]. by right.
Qed.

Lemma last_in_chars s c : last (chars s) = Some c → c ∈ chars s.
Proof. apply last_Some_elem_of. Qed.

Lemma symbol_of_alnum c : Char.alnum c = true → Char.symbol c = true.
Proof.
  unfold Char.alnum, Char.symbol. intros ->. reflexivity.
Qed.

Lemma emptyProcessor_nil tag : emptyProcessor tag = [] ↔ GetValue tag ≠ "".
Proof.
  unfold emptyProcessor. destruct (GetValue tag); simpl; split; done.
Qed.

(** X3: whatever the order in which the two default patterns are visited, the
    two default rules together accept a tag, that is report nothing, exactly
    when its value is not empty, is made of bytes in [a-z0-9_, ] and ends
    with a byte in [a-z0-9]. *)
Theorem default_rules_accept order tag :
  order ≡ₚ defaultRegexRules →
  regexProcessor order tag ++ emptyProcessor tag = [] ↔
    GetValue tag ≠ ""
    ∧ (∀ c, c ∈ chars (GetValue tag) → Char.symbol c = true)
    ∧ (∃ c, last (chars (GetValue tag)) = Some c ∧ Char.alnum c = true).
Proof.
  intros Hp.
  assert (regexProcessor order tag = [] ↔
            find_neg_plus Char.symbol (GetValue tag) = ""
            ∧ find_neg_end Char.alnum (GetValue tag) = "") as Hregex.
  { destruct (regexProcessor_orders order tag Hp) as [-> | ->];
      rewrite app_nil, !rule_errs_nil; cbn [FindString]; tauto. }
  rewrite app_nil, Hregex, emptyProcessor_nil, find_neg_plus_empty,
    find_neg_end_empty.
  split.
  - intros [[Hall [Hv | Hlast]] Hne]; [done | by repeat split].
  - intros (Hne & Hall & Hlast). auto.
Qed.

Lemma default_rules_accept_witness :
  regexProcessor defaultRegexRules (mkTag "db" "created_at" "Customer")
    ++ emptyProcessor (mkTag "db" "created_at" "Customer") = [].
Proof.
  apply (default_rules_accept defaultRegexRules (mkTag "db" "created_at" "Customer"));
    [done |].
  split; [discriminate |]. split.
  - intros c Hc. vm_compute in Hc.
    repeat (apply elem_of_cons in Hc as [-> | Hc]; [reflexivity |]).
    inversion Hc.
  - exists "t"%char. split; reflexivity.
Defined.

(** X4: the default rules report a tag at most twice; a value whose last byte
    is outside [a-z0-9_, ] is reported twice, once by each pattern: the
    symbols error names the leftmost illegal run, and the ending error names
    the last byte when that byte is ASCII. *)
Theorem default_rules_count order tag :
  order ≡ₚ defaultRegexRules →
  length (regexProcessor order tag ++ emptyProcessor tag) ≤ 2
  ∧ (∀ c, last (chars (GetValue tag)) = Some c → Char.symbol c = false →
          length (regexProcessor order tag) = 2
          ∧ findings symbols_msg (regexProcessor order tag) =
              [ Errorf symbols_msg [find_neg_plus Char.symbol (GetValue tag);
                                    GetStructName tag; GetName tag; GetValue tag] ]
          ∧ length (findings ending_msg (regexProcessor order tag)) = 1
          ∧ emptyProcessor tag = []
          ∧ (Char.code c < 128 →
             findings ending_msg (regexProcessor order tag) =
               [ Errorf ending_msg [String c ""; GetStructName tag; GetName tag;
                                    GetValue tag] ])).
Proof.
  intros Hp. split.
  - rewrite length_app.
    assert (length (regexProcessor order tag) ≤ 2) as Hle.
    { pose proof (rule_errs_length tag (symbols_msg, NegPlus Char.symbol)).
      pose proof (rule_errs_length tag (ending_msg, NegEnd Char.alnum)).
      destruct (regexProcessor_orders order tag Hp) as [-> | ->];
        rewrite length_app; lia. }
    destruct (decide (GetValue tag = "")) as [Hv | Hv].
    + assert (regexProcessor order tag = []) as ->.
      { destruct (regexProcessor_orders order tag Hp) as [-> | ->];
          apply app_nil; rewrite !rule_errs_nil; cbn [FindString];
          by rewrite Hv. }
      unfold emptyProcessor. rewrite Hv. simpl. lia.
    + apply emptyProcessor_nil in Hv. rewrite Hv. simpl. lia.
  - intros c Hlast Hsym.
    assert (GetValue tag ≠ "") as Hne.
    { intros Hv. rewrite Hv in Hlast. discriminate Hlast. }
    assert (find_neg_end Char.alnum (GetValue tag) = String c "") as Hend.
    { assert (Char.alnum c = false) as Hal.
      { destruct (Char.alnum c) eqn:Ha; [|done].
        apply symbol_of_alnum in Ha. congruence. }
      clear Hne Hsym. revert Hlast.
      induction (GetValue tag) as [|x s IH]; [done |].
      destruct s as [|y s]; simpl.
      - intros [= ->]. by rewrite Hal.
      - intros Hl. apply IH. exact Hl. }
    assert (find_neg_plus Char.symbol (GetValue tag) ≠ "") as Hplus.
    { apply find_neg_plus_match. exists c. split; [by apply last_in_chars | done]. }
    assert (rule_errs tag (symbols_msg, NegPlus Char.symbol)
            = [Errorf symbols_msg [find_neg_plus Char.symbol (GetValue tag);
                                   GetStructName tag; GetName tag; GetValue tag]]) as Hs.
    { unfold rule_errs, regex_step. cbn [FindString].
      apply string_length_pos in Hplus. by rewrite Hplus. }
    assert (rule_errs tag (ending_msg, NegEnd Char.alnum)
            = [Errorf ending_msg [String c ""; GetStructName tag; GetName tag;
                                  GetValue tag]]) as He.
    { unfold rule_errs, regex_step. cbn [FindString]. by rewrite Hend. }
    rewrite (findings_symbols order tag Hp), (findings_ending order tag Hp), Hs, He.
    split; [|split; [done |split; [done |split; [by apply emptyProcessor_nil | done]]]].
    destruct (regexProcessor_orders order tag Hp) as [-> | ->]; by rewrite Hs, He.
Qed.

Lemma default_rules_count_witness :
  length (regexProcessor defaultRegexRules (mkTag "db" "created-" "Customer")) = 2
  ∧ findings ending_msg
      (regexProcessor defaultRegexRules (mkTag "db" "created-" "Customer"))
    = [Errorf ending_msg ["-"; "Customer"; "db"; "created-"]].
Proof.
  destruct (default_rules_count defaultRegexRules (mkTag "db" "created-" "Customer"))
    as [_ Htwo]; [done |].
  destruct (Htwo "-"%char) as (Hlen & _ & _ & _ & Hend); [reflexivity.. |].
  split; [exact Hlen |]. apply Hend. vm_compute. lia.
Defined.

(** ** Counting the errors of a validation *)

Lemma cache_after_cons cache t ts :
  cache_after cache (t :: ts) = cache_after (<[cacheKey t := true]> cache) ts.
Proof. reflexivity. Qed.


Lemma cache_after_dom cache ts :
  dom (cache_after cache ts) = dom cache ∪ list_to_set (cacheKey <$> ts).
Proof.
  revert cache. induction ts as [|t ts IH]; intros cache.
  - simpl. set_solver.
  - rewrite cache_after_cons, IH, dom_insert_L, fmap_cons, list_to_set_cons.
    set_solver.
Qed.



Lemma concat_perm {A : Type} (l l' : list (list A)) :
  l ≡ₚ l' → concat l ≡ₚ concat l'.
Proof.
  induction 1 as [|x l l' _ IH|x y l|l l' l'' _ IH1 _ IH2]; simpl.
  - done.
  - by rewrite IH.
  - rewrite !app_assoc. f_equiv. apply Permutation_app_comm.
  - by rewrite IH1.
Qed.



Section ValidationResults.

Variable growcap : nat → nat → nat.
Variable range : ∀ V : Type, gmap string V → list (string * V).

(** X5: on a registry built by registration and a non-empty tag map, the
    errors validate returns are, for each tag in the order of processing,
    its duplicate finding if the check is on and finds one, then the errors
    of the rules registered under its name in registration order, then those
    of the wildcard rules; no rule is skipped after an error, and the store
    comes back with every registered list unchanged. *)
Theorem validate_errors_in_order v h :
  registry_wf (processors v) h →
  size (tags v) ≠ 0 →
  (validate growcap range v h).2 = run_errors v h ∅ (processed range v)
  ∧ (∀ cache t ts,
       run_errors v h cache (t :: ts) =
         ((if allowDuplicates v then [] else (checkForDuplicates t cache).1)
            ++ flat_map (λ p : Processor, p t) (registered v h (GetName t))
            ++ flat_map (λ p : Processor, p t) (registered v h AllTags))
         ++ run_errors v h
              (if allowDuplicates v then cache else (checkForDuplicates t cache).2) ts)
  ∧ ∀ k, registered v (validate growcap range v h).1 k = registered v h k.
Proof.
  intros Hwf Hnz.
  destruct (validate_spec growcap range v h Hwf Hnz) as (h' & Hval & _ & Hreg).
  rewrite Hval. cbn [fst snd]. split; [done |]. split; [|done].
  intros cache t ts. cbn [run_errors]. unfold tag_errors, applicable.
  rewrite flat_map_app.
  destruct (allowDuplicates v); [done |].
  by destruct (checkForDuplicates t cache).
Qed.




End ValidationResults.


(** ** Extraction: fan-in and grouping *)

Lemma group_fold_lookup (m0 : gmap string (list Tag)) arrived k :
  default [] (foldl (λ tags tag,
                       <[structName tag := default [] (tags !! structName tag) ++ [tag]]>
                         tags) m0 arrived !! k)
  = default [] (m0 !! k) ++ filter (λ t, structName t = k) arrived.
Proof.
  revert m0. induction arrived as [|t arrived IH]; intros m0.
  - simpl. by rewrite app_nil_r.
  - cbn [foldl]. rewrite IH, lookup_insert.
    destruct (decide (structName t = k)) as [<- | Hne].
    + rewrite filter_cons_True by done. simpl. by rewrite <- app_assoc.
    + by rewrite filter_cons_False.
Qed.

Lemma group_tags_lookup arrived k :
  group_tags arrived !! k =
    match filter (λ t, structName t = k) arrived with
    | [] => None
    | ts => Some ts
    end.
Proof.
  pose proof (group_fold_lookup ∅ arrived k) as Hl.
  rewrite lookup_empty in Hl. simpl in Hl. fold (group_tags arrived) in Hl.
  destruct (group_tags arrived !! k) as [ts|] eqn:Hk; simpl in Hl; rewrite <- Hl.
  - apply group_tags_nonempty in Hk. by destruct ts.
  - done.
Qed.

Lemma Interleaving_perm {A : Type} (cs : list (list A)) out :
  Interleaving cs out → out ≡ₚ concat cs.
Proof.
  induction 1 as [cs Hall | cs i x c out Hi _ IH].
  - apply concat_nil_Forall in Hall. by rewrite Hall.
  - rewrite IH. rewrite <- (take_drop_middle cs i (x :: c) Hi) at 2.
    rewrite insert_take_drop by (by eapply lookup_lt_Some).
    rewrite !concat_app, !concat_cons. simpl.
    apply Permutation_middle.
Qed.

Lemma group_step_perm (m0 : gmap string (list Tag)) t :
  concat (map_to_list
            (<[structName t := default [] (m0 !! structName t) ++ [t]]> m0)).*2
  ≡ₚ concat (map_to_list m0).*2 ++ [t].
Proof.
  destruct (m0 !! structName t) as [old|] eqn:Hs; simpl.
  - rewrite <- (insert_delete_eq m0).
    etrans.
    { apply concat_perm, fmap_Permutation, map_to_list_insert, lookup_delete_eq. }
    etrans.
    2:{ apply Permutation_app_tail, concat_perm, fmap_Permutation,
          (map_to_list_delete m0 (structName t) old Hs). }
    simpl. rewrite <- !app_assoc. f_equiv. apply Permutation_app_comm.
  - etrans.
    { apply concat_perm, fmap_Permutation, map_to_list_insert, Hs. }
    simpl. apply Permutation_cons_append.
Qed.

Lemma group_fold_perm (m0 : gmap string (list Tag)) arrived :
  concat (map_to_list
            (foldl (λ tags tag,
                      <[structName tag := default [] (tags !! structName tag) ++ [tag]]>
                        tags) m0 arrived)).*2
  ≡ₚ concat (map_to_list m0).*2 ++ arrived.
Proof.
  revert m0. induction arrived as [|t arrived IH]; intros m0.
  - simpl. by rewrite app_nil_r.
  - cbn [foldl]. rewrite IH, group_step_perm. by rewrite <- app_assoc.
Qed.

Lemma group_tags_perm arrived :
  concat (map_to_list (group_tags arrived)).*2 ≡ₚ arrived.
Proof.
  unfold group_tags. rewrite group_fold_perm.
  by rewrite map_to_list_empty.
Qed.

Lemma run_errors_same v v' h cache ts :
  processors v' = processors v → allowDuplicates v' = allowDuplicates v →
  run_errors v' h cache ts = run_errors v h cache ts.
Proof.
  intros Hp Ha. revert cache. induction ts as [|t ts IH]; intros cache; [done |].
  cbn [run_errors]. unfold tag_errors, applicable, registered.
  by rewrite Hp, Ha, IH.
Qed.

Section Extraction.

Variable growcap : nat → nat → nat.
Variable compile : string → option Matcher.
Variable range : ∀ V : Type, gmap string V → list (string * V).
Variable multiplex : list (list Tag) → list Tag.

Hypothesis range_permutes : ∀ V (m : gmap string V), range V m ≡ₚ map_to_list m.

(** X10: getTags files every tag it receives under the struct name of the
    tag, in the order of arrival: the entry of a struct name holds exactly
    the received tags of that struct, and a struct name without a tag has no
    entry. *)
Theorem getTags_groups tagNames pkgs found k :
  getTags compile range multiplex tagNames pkgs = Returned found →
  ∃ dbRegex,
    compile (dbPattern tagNames) = Some dbRegex
    ∧ found !! k =
        match filter (λ t, structName t = k)
                (multiplex (tagChans range dbRegex pkgs)) with
        | [] => None
        | ts => Some ts
        end.
Proof using Type.
  unfold getTags. intros Hget.
  destruct (compile (dbPattern tagNames)) as [dbRegex|]; [|discriminate].
  injection Hget as <-. exists dbRegex. split; [done |].
  apply group_tags_lookup.
Qed.

(** X11: a run with a non-empty registry that returns has scanned the
    packages, grouped the tags the fan-in delivered, and processed each
    delivered tag exactly once, in some order; with no tag delivered it
    returns the no-tags error alone, and otherwise the errors of the
    validation of these tags. *)
Theorem Run_processes_delivered models env v h v' h' errs chans :
  registry_wf (processors v) h →
  processors v ≠ ∅ →
  extracted compile range models env v = Some chans →
  Run growcap compile range multiplex models env (v, h) = Returned (v', h', errs) →
  getPackages env (path v) models = Returned (packages v')
  ∧ tags v' = group_tags (multiplex chans)
  ∧ processed range v' ≡ₚ multiplex chans
  ∧ (multiplex chans = [] → errs = [no_tags])
  ∧ (multiplex chans ≠ [] → errs = run_errors v h ∅ (processed range v')).
Proof using range_permutes.
  intros Hwf Hreg Hext Hrun. unfold extracted in Hext. unfold Run in Hrun.
  destruct (getPackages env (path v) models) as [pkgs | e]; [|discriminate].
  cbn [processors packages tags path allowDuplicates] in Hrun.
  destruct (Nat.eqb_spec (size (processors v)) 0) as [Hz | _].
  { by apply map_size_empty_iff in Hz. }
  unfold getTags in Hrun.
  destruct (compile (dbPattern (range slice (processors v)).*1)) as [dbRegex|];
    [|discriminate].
  injection Hext as <-.
  set (arrived := multiplex (tagChans range dbRegex pkgs)) in *.
  set (v2 := mkValidator pkgs (group_tags arrived) (processors v) (path v)
               (allowDuplicates v)) in *.
  assert (processed range v2 ≡ₚ arrived) as Hperm.
  { unfold processed. etrans.
    { apply concat_perm, fmap_Permutation, range_permutes. }
    apply group_tags_perm. }
  destruct (decide (size (tags v2) = 0)) as [Hz | Hnz].
  - rewrite validate_empty in Hrun by done. injection Hrun as <- <- <-.
    apply group_tags_size in Hz. by repeat split.
  - destruct (validate_spec growcap range v2 h Hwf Hnz) as (h2 & Hval & _ & _).
    rewrite Hval in Hrun. injection Hrun as <- <- <-.
    split; [done |]. split; [done |]. split; [done |]. split.
    + intros Hnone. exfalso. apply Hnz. by apply group_tags_size.
    + intros _. by apply run_errors_same.
Qed.

End Extraction.

(** ** The scan of the directory *)

Lemma scanned_false filter acc d :
  scanned filter d = false → parse_entry filter acc d = acc.
Proof.
  unfold scanned, parse_entry. destruct acc as [pkgs first].
  destruct (d_isDir d), (HasSuffix (d_name d) ".go"), (filter (d_name d));
    simpl; done.
Qed.

Lemma scanned_true filter pkgs first d :
  scanned filter d = true →
  parse_entry filter (pkgs, first) d =
    match d_parse d with
    | Some (pname, src) =>
        let pkg := default (mkPackage pname ∅) (pkgs !! pname) in
        (<[pname := mkPackage (Name pkg) (<[d_name d := src]> (Files pkg))]> pkgs,
         first)
    | None =>
        (pkgs, match first with None => Some (syntax_error (d_name d)) | _ => first end)
    end.
Proof.
  unfold scanned, parse_entry.
  destruct (d_isDir d), (HasSuffix (d_name d) ".go"), (filter (d_name d));
    simpl; done.
Qed.

(** An error, once met, stays; without one every parsed entry parsed. *)
Lemma parse_fold_no_error filter acc entries pkgs :
  foldl (parse_entry filter) acc entries = (pkgs, None) →
  acc.2 = None
  ∧ ∀ d, d ∈ entries → scanned filter d = true → is_Some (d_parse d).
Proof.
  revert acc. induction entries as [|d entries IH]; intros acc Hfold.
  - simpl in Hfold. rewrite Hfold. split; [done |]. intros d Hd. inversion Hd.
  - cbn [foldl] in Hfold. destruct (IH _ Hfold) as [Hnone Hrest].
    destruct acc as [pkgs0 first0]. destruct (scanned filter d) eqn:Hs.
    + rewrite scanned_true in Hnone by done.
      destruct (d_parse d) as [[pname src]|] eqn:Hparse.
      * split; [done |].
        intros d' [-> | Hd']%elem_of_cons Hs'; [by rewrite Hparse | auto].
      * simpl in Hnone. by destruct first0.
    + rewrite scanned_false in Hnone by done. split; [done |].
      intros d' [-> | Hd']%elem_of_cons Hs'; [congruence | auto].
Qed.

(** Every file of the result was read from a parsed entry. *)
Lemma parse_entry_sound filter (all : list DirEntry) pkgs first d :
  d ∈ all →
  (∀ pname fname src, holds pkgs pname fname src →
     ∃ d', d' ∈ all ∧ scanned filter d' = true ∧ d_name d' = fname
           ∧ d_parse d' = Some (pname, src)) →
  ∀ pname fname src, holds (parse_entry filter (pkgs, first) d).1 pname fname src →
     ∃ d', d' ∈ all ∧ scanned filter d' = true ∧ d_name d' = fname
           ∧ d_parse d' = Some (pname, src).
Proof.
  intros Hd Hinv pname fname src.
  destruct (scanned filter d) eqn:Hs.
  - rewrite scanned_true by done.
    destruct (d_parse d) as [[pname' src']|] eqn:Hparse; [|apply Hinv].
    cbn [fst]. intros (pkg & Hpkg & Hfile).
    apply lookup_insert_Some in Hpkg as [[<- <-] | [Hne Hpkg]].
    + cbn [Files] in Hfile.
      apply lookup_insert_Some in Hfile as [[<- <-] | [Hne Hfile]].
      * by exists d.
      * apply Hinv. destruct (pkgs !! pname') as [pkg0|] eqn:Hp0.
        -- by exists pkg0.
        -- simpl in Hfile. by rewrite lookup_empty in Hfile.
    + apply Hinv. by exists pkg.
  - rewrite scanned_false by done. apply Hinv.
Qed.

Lemma parse_fold_sound filter (all : list DirEntry) acc entries :
  (∀ d, d ∈ entries → d ∈ all) →
  (∀ pname fname src, holds acc.1 pname fname src →
     ∃ d', d' ∈ all ∧ scanned filter d' = true ∧ d_name d' = fname
           ∧ d_parse d' = Some (pname, src)) →
  ∀ pname fname src,
    holds (foldl (parse_entry filter) acc entries).1 pname fname src →
    ∃ d', d' ∈ all ∧ scanned filter d' = true ∧ d_name d' = fname
          ∧ d_parse d' = Some (pname, src).
Proof.
  revert acc. induction entries as [|d entries IH]; intros acc Hsub Hinv; [done |].
  cbn [foldl]. apply IH.
  - intros d' Hd'. apply Hsub. by right.
  - destruct acc as [pkgs first]. apply parse_entry_sound; [|done].
    apply Hsub. by left.
Qed.

(** A file name, once in a package, stays in it. *)
Lemma parse_entry_keeps filter pkgs first d pname fname :
  (∃ src, holds pkgs pname fname src) →
  ∃ src, holds (parse_entry filter (pkgs, first) d).1 pname fname src.
Proof.
  intros (src & pkg & Hpkg & Hfile).
  destruct (scanned filter d) eqn:Hs.
  - rewrite scanned_true by done.
    destruct (d_parse d) as [[pname' src']|]; [|by exists src, pkg].
    cbn [fst]. destruct (decide (pname' = pname)) as [-> | Hne].
    + rewrite Hpkg. cbn [default from_option id].
      destruct (decide (d_name d = fname)) as [<- | Hnf].
      * exists src'. eexists. rewrite lookup_insert_eq. split; [done |].
        cbn [Files]. by rewrite lookup_insert_eq.
      * exists src. eexists. rewrite lookup_insert_eq. split; [done |].
        cbn [Files]. by rewrite lookup_insert_ne.
    + exists src, pkg. by rewrite lookup_insert_ne.
  - rewrite scanned_false by done. by exists src, pkg.
Qed.

Lemma parse_fold_keeps filter acc entries pname fname :
  (∃ src, holds acc.1 pname fname src) →
  ∃ src, holds (foldl (parse_entry filter) acc entries).1 pname fname src.
Proof.
  revert acc. induction entries as [|d entries IH]; intros acc Hin; [done |].
  cbn [foldl]. apply IH. destruct acc as [pkgs first].
  by apply parse_entry_keeps.
Qed.

Lemma parse_fold_complete filter acc entries d pname src :
  d ∈ entries → scanned filter d = true → d_parse d = Some (pname, src) →
  ∃ src', holds (foldl (parse_entry filter) acc entries).1 pname (d_name d) src'.
Proof.
  revert acc. induction entries as [|d0 entries IH]; intros acc Hd Hs Hparse.
  - inversion Hd.
  - cbn [foldl]. apply elem_of_cons in Hd as [<- | Hd]; [|by apply IH].
    apply parse_fold_keeps. destruct acc as [pkgs first].
    rewrite scanned_true, Hparse by done. cbn [fst].
    exists src. eexists. rewrite lookup_insert_eq. split; [done |].
    cbn [Files]. by rewrite lookup_insert_eq.
Qed.

(** X13: when getPackages returns, the directory was read, no file it parsed
    had a syntax error, at least one package was found, every file of the
    packages comes from a parsed entry of the directory, under the package
    and the name of that entry, and every parsed entry has its name in its
    package. *)
Theorem getPackages_returns env folder models pkgs :
  getPackages env folder models = Returned pkgs →
  pkgs ≠ ∅
  ∧ ∃ entries,
      env folder = Some entries
      ∧ (∀ d, d ∈ entries → scanned (fileFilter (modelMap models)) d = true →
              is_Some (d_parse d))
      ∧ (∀ pname fname src, holds pkgs pname fname src →
           ∃ d, d ∈ entries ∧ scanned (fileFilter (modelMap models)) d = true
                ∧ d_name d = fname ∧ d_parse d = Some (pname, src))
      ∧ (∀ d pname src, d ∈ entries →
           scanned (fileFilter (modelMap models)) d = true →
           d_parse d = Some (pname, src) →
           ∃ src', holds pkgs pname (d_name d) src').
Proof.
  unfold getPackages, ParseDir. intros Hget.
  destruct (env folder) as [entries|]; [|discriminate].
  destruct (foldl (parse_entry (fileFilter (modelMap models))) (∅, None) entries)
    as [pkgs' [err|]] eqn:Hfold; [discriminate |].
  destruct (Nat.eqb_spec (size pkgs') 0) as [? | Hnz]; [discriminate |].
  injection Hget as <-. split.
  { intros He. apply Hnz. by rewrite He, map_size_empty. }
  exists entries. split; [done |].
  destruct (parse_fold_no_error _ _ _ _ Hfold) as [_ Hparsed].
  split; [done |]. split.
  - intros pname fname src Hh.
    apply (parse_fold_sound (fileFilter (modelMap models)) entries (∅, None) entries);
      [done | | by rewrite Hfold].
    intros pn fn s (pkg & Hpkg & _). simpl in Hpkg. by rewrite lookup_empty in Hpkg.
  - intros d pname src Hd Hs Hparse.
    pose proof (parse_fold_complete (fileFilter (modelMap models)) (∅, None)
                  entries d pname src Hd Hs Hparse) as Hc.
    by rewrite Hfold in Hc.
Qed.

Lemma getPackages_returns_witness :
  customer_pkgs ≠ ∅
  ∧ ∃ src', holds customer_pkgs "models" "customer.go" src'.
Proof.
  destruct (getPackages_returns customer_dir "models" [] customer_pkgs)
    as (Hne & entries & Henv & _ & _ & Hall); [vm_compute; reflexivity |].
  split; [exact Hne |].
  injection Henv as <-.
  apply (Hall (mkDirEntry "customer.go" false
                 (Some ("models", [ mkField "Customer" "created_at";
                                    mkField "Customer" "updated_at" ])))
              "models" [ mkField "Customer" "created_at";
                         mkField "Customer" "updated_at" ]
              (list_elem_of_here _ _)); reflexivity.
Defined.

(** ** The file filter on names that are not tests *)

Lemma model_key_go model : model_key model = ToLower model +:+ ".go".
Proof.
  unfold model_key. cbn [Join]. reflexivity.
Qed.

(** X14: a name that does not end in _test.go passes the filter when no
    model is requested, and otherwise exactly when its lower-case form is the
    lower-case form of a requested model followed by .go. *)
Theorem fileFilter_plain_names models fname :
  HasSuffix fname "_test.go" = false →
  fileFilter (modelMap models) fname = true ↔
    models = [] ∨ ∃ model, model ∈ models ∧ ToLower fname = ToLower model +:+ ".go".
Proof.
  intros Htest. rewrite fileFilter_cases, Htest.
  destruct models as [|m models].
  - simpl. split; [by left | done].
  - rewrite (bool_decide_eq_true (requested (m :: models) fname)).
    unfold requested. rewrite list_elem_of_fmap. split.
    + intros (model & Hkey & Hin). right. exists model.
      by rewrite <- model_key_go.
    + intros [[=] | (model & Hin & Hkey)]. exists model.
      by rewrite model_key_go.
Qed.

Lemma fileFilter_plain_names_witness :
  fileFilter (modelMap ["customer"]) "Customer.go" = true.
Proof.
  apply (fileFilter_plain_names ["customer"] "Customer.go"); [reflexivity |].
  right. exists "customer". split; [apply list_elem_of_here | reflexivity].
Defined.

(** ** Requested models, by letter case *)

Lemma to_lower_idemp c : Char.to_lower (Char.to_lower c) = Char.to_lower c.
Proof. destruct c as [[] [] [] [] [] [] [] []]; reflexivity. Qed.

Lemma ToLower_idemp s : ToLower (ToLower s) = ToLower s.
Proof.
  induction s as [|c s IH]; [done |]. simpl. by rewrite to_lower_idemp, IH.
Qed.

Lemma modelMap_keys models :
  modelMap models = foldl (λ m k, <[k := true]> m) ∅ (model_key <$> models).
Proof. unfold modelMap. by rewrite foldl_fmap. Qed.

(** X15: requested models are taken without regard to letter case: the scan
    with the lower-case forms of the requested names is the scan with the
    names as given. *)
Theorem getPackages_lower_case env folder models :
  getPackages env folder (ToLower <$> models) = getPackages env folder models.
Proof.
  unfold getPackages. rewrite (modelMap_keys (ToLower <$> models)), modelMap_keys.
  rewrite <- list_fmap_compose.
  assert (model_key ∘ ToLower <$> models = model_key <$> models) as ->; [|done].
  apply list_fmap_ext. intros i m _. unfold model_key. simpl.
  by rewrite ToLower_idemp.
Qed.

(** ** The further properties on the example data *)

Lemma checked_validator_wf : registry_wf (processors checked_validator) db_validator.2.
Proof. exact db_validator_wf. Qed.

Lemma checked_validator_tags : size (tags checked_validator) ≠ 0.
Proof. vm_compute. discriminate. Qed.


Lemma validate_errors_in_order_witness :
  (validate double_cap listed checked_validator db_validator.2).2
  = [duplicate_error created].
Proof.
  destruct (validate_errors_in_order double_cap listed checked_validator
              db_validator.2 checked_validator_wf checked_validator_tags)
    as [-> _].
  vm_compute. reflexivity.
Defined.





Lemma getTags_groups_witness :
  ∃ dbRegex,
    db_compile (dbPattern ["db"]) = Some dbRegex
    ∧ group_tags [created; updated] !! "Customer" =
        match filter (λ t, structName t = "Customer")
                (in_turn (tagChans listed dbRegex customer_pkgs)) with
        | [] => None
        | ts => Some ts
        end.
Proof.
  apply (getTags_groups db_compile listed in_turn ["db"] customer_pkgs
           (group_tags [created; updated]) "Customer").
  vm_compute. reflexivity.
Defined.

Lemma plain_validator_wf : registry_wf (processors plain_validator.1) plain_validator.2.
Proof. apply (built_wf double_cap), built_add, built_new. Qed.

Lemma Run_processes_delivered_witness :
  tags run_validator = group_tags (in_turn [[created; updated]])
  ∧ processed listed run_validator ≡ₚ in_turn [[created; updated]].
Proof.
  destruct (Run_processes_delivered double_cap db_compile listed in_turn
              listed_permutes [] customer_dir
              plain_validator.1 plain_validator.2 run_validator plain_validator.2 []
              [[created; updated]])
    as (_ & Htags & Hperm & _).
  - exact plain_validator_wf.
  - vm_compute. discriminate.
  - vm_compute. reflexivity.
  - vm_compute. reflexivity.
  - by split.
Defined.

(** ** The cache of the duplicate check *)

(** X16: the duplicate check only adds to its cache: after a sequence of
    tags the cache holds the keys it held before and the joined keys of the
    tags checked, no other, and each joined key of a checked tag is marked
    true. *)
Theorem cache_holds_checked_keys cache ts :
  dom (cache_after cache ts) = dom cache ∪ list_to_set (cacheKey <$> ts)
  ∧ (∀ k, is_Some (cache !! k) → is_Some (cache_after cache ts !! k))
  ∧ (∀ t, t ∈ ts → cache_after cache ts !! cacheKey t = Some true).
Proof.
  split; [apply cache_after_dom |]. split.
  - intros k Hk. apply cache_after_lookup. by left.
  - revert cache. induction ts as [|t0 ts IH]; intros cache t Ht.
    + inversion Ht.
    + rewrite cache_after_cons.
      apply elem_of_cons in Ht as [-> | Ht]; [|by apply IH].
      destruct (decide (cacheKey t0 ∈ cacheKey <$> ts)) as [Hin | Hnin].
      * apply list_elem_of_fmap in Hin as (t' & Hk & Ht').
        rewrite Hk. by apply IH.
      * clear IH. revert cache.
        induction ts as [|t1 ts IH]; intros cache.
        -- apply lookup_insert_eq.
        -- rewrite cache_after_cons.
           rewrite fmap_cons in Hnin. apply not_elem_of_cons in Hnin as [Hne Hnin].
           rewrite insert_insert_ne by done. by apply IH.
Qed.

(** ** The pattern of the extraction *)

(** X17: once the wildcard is registered, the pattern compiled for the
    extraction is the one for every lower-case tag name, whatever other
    names are registered and in whatever order the registry is iterated. *)
Theorem dbPattern_wildcard (range : ∀ V : Type, gmap string V → list (string * V))
    (procs : gmap string slice) :
  (∀ V (m : gmap string V), range V m ≡ₚ map_to_list m) →
  is_Some (procs !! AllTags) →
  dbPattern (range _ procs).*1 = dbPattern [AllTags].
Proof.
  intros Hrange [s Hs]. unfold dbPattern.
  rewrite (bool_decide_eq_true_2 (AllTags ∈ (range slice procs).*1)).
  - by rewrite (bool_decide_eq_true_2 (AllTags ∈ [AllTags]))
      by apply list_elem_of_here.
  - apply list_elem_of_fmap. exists (AllTags, s). split; [done |].
    rewrite (Hrange _ procs). by apply elem_of_map_to_list.
Qed.

Lemma dbPattern_wildcard_witness :
  dbPattern
    (listed _ (processors
                 (AddDefaultProcessors double_cap defaultRegexRules ["db"; "*"]
                    (NewValidator "models", [])).1)).*1
  = dbPattern [AllTags].
Proof.
  apply (dbPattern_wildcard listed _ listed_permutes).
  vm_compute. eauto.
Defined.

(** ** The goroutines of the fan-in *)

Lemma Interleaving_snoc {A : Type} (cs : list (list A)) l :
  Interleaving cs l →
  ∀ i d x, cs !! i = Some d → Interleaving (<[i := d ++ [x]]> cs) (l ++ [x]).
Proof.
  induction 1 as [cs Hall | cs j y c l Hj _ IH]; intros i d x Hi.
  - assert (d = []) as ->.
    { rewrite Forall_lookup in Hall. exact (Hall i d Hi). }
    simpl. apply (il_step _ i x []).
    + rewrite list_lookup_insert_eq; [done | by eapply lookup_lt_Some].
    + rewrite list_insert_insert_eq. apply il_done.
      rewrite list_insert_id; done.
  - simpl. destruct (decide (i = j)) as [-> | Hne].
    + rewrite Hj in Hi. injection Hi as <-.
      apply (il_step _ j y (c ++ [x])).
      * rewrite list_lookup_insert_eq; [done | by eapply lookup_lt_Some].
      * rewrite list_insert_insert_eq.
        specialize (IH j c x).
        rewrite list_insert_insert_eq in IH. apply IH.
        rewrite list_lookup_insert_eq; [done | by eapply lookup_lt_Some].
    + apply (il_step _ j y c).
      * by rewrite list_lookup_insert_ne.
      * rewrite list_insert_insert_ne by done. apply IH.
        by rewrite list_lookup_insert_ne.
Qed.

Lemma Interleaving_done {A : Type} (cs : list (list A)) :
  Interleaving (replicate (length cs) []) ([] : list A).
Proof. apply il_done. apply Forall_replicate. reflexivity. Qed.

Lemma messages_cons tag ts : messages (tag :: ts) = Some tag :: messages ts.
Proof. reflexivity. Qed.

Lemma messages_head m msgs ts :
  m :: msgs = messages ts →
  match m with
  | Some tag => ∃ ts', ts = tag :: ts' ∧ msgs = messages ts'
  | None => msgs = [] ∧ ts = []
  end.
Proof.
  destruct ts as [|t ts]; unfold messages; simpl.
  - intros [= -> ->]. done.
  - intros [= -> ->]. by exists ts.
Qed.

Lemma sum_list_insert (l : list nat) i x y :
  l !! i = Some x → sum_list (<[i := y]> l) + x = sum_list l + y.
Proof.
  revert i. induction l as [|z l IH]; intros [|i]; simpl; try done.
  - intros [= ->]. lia.
  - intros Hi. specialize (IH i Hi). lia.
Qed.

Lemma sum_length_insert {A : Type} (l : list (list A)) i x y :
  l !! i = Some x →
  sum_list (length <$> <[i := y]> l) + length x
  = sum_list (length <$> l) + length y.
Proof.
  intros Hi. rewrite list_fmap_insert. apply sum_list_insert.
  by rewrite list_lookup_fmap, Hi.
Qed.

Lemma sum_sending_insert (l : list output) i o o' :
  l !! i = Some o →
  sum_list (sending <$> <[i := o']> l) + sending o
  = sum_list (sending <$> l) + sending o'.
Proof.
  intros Hi. rewrite list_fmap_insert. apply sum_list_insert.
  by rewrite list_lookup_fmap, Hi.
Qed.

Lemma sum_replicate_zero n : sum_list (replicate n 0) = 0.
Proof. induction n; simpl; lia. Qed.

Lemma sum_length_messages (cs : list (list Tag)) :
  sum_list (length <$> (messages <$> cs)) = length (concat cs) + length cs.
Proof.
  induction cs as [|c cs IH]; [done |].
  rewrite !fmap_cons. simpl. rewrite IH. unfold messages.
  rewrite !length_app, length_fmap. simpl. lia.
Qed.

Lemma work_start cs : work (start cs) = 4 * (length (concat cs) + length cs) + 2.
Proof.
  unfold work, start. cbn [unsent tagChan outputs out closed crashed].
  rewrite sum_length_messages.
  assert (length <$> replicate (length cs) ([] : list (option Tag))
          = replicate (length cs) 0) as -> by by rewrite fmap_replicate.
  assert (sending <$> replicate (length cs) Receiving
          = replicate (length cs) 0) as -> by by rewrite fmap_replicate.
  rewrite !sum_replicate_zero. simpl. lia.
Qed.

Lemma fanin_inv_start cs : fanin_inv cs (start cs).
Proof.
  unfold fanin_inv, start. cbn [unsent tagChan outputs out closed crashed arrived].
  rewrite length_fmap, !length_replicate.
  split; [done |]. split; [done |]. split; [done |]. split; [done |].
  split; [done |].
  exists (replicate (length cs) []).
  split; [by rewrite length_replicate |].
  split; [apply Interleaving_done |].
  intros i o Ho. apply lookup_replicate in Ho as [-> Hi].
  destruct (lookup_lt_is_Some_2 cs i Hi) as [c Hc].
  exists c, [], c, [], (messages c).
  split; [done |]. split; [by apply lookup_replicate |].
  split; [by apply lookup_replicate |].
  split; [by rewrite list_lookup_fmap, Hc |]. done.
Qed.

(** Each action keeps the invariant. *)
Lemma exec_inv cs a st st' :
  fanin_inv cs st → exec a st = Some st' → fanin_inv cs st'.
Proof.
  intros (Hcr & Hlu & Hlt & Hlo & Hcl & sent & Hls & Hil & Hrem) Hex.
  unfold exec in Hex. rewrite Hcr in Hex.
  destruct a as [i | i | i | |].
  - (* Collect *)
    destruct (unsent st !! i) as [[|m rest]|] eqn:Hu; try discriminate.
    destruct (tagChan st !! i) as [buf|] eqn:Ht; try discriminate.
    destruct (length buf <? 50); [|discriminate].
    injection Hex as <-. unfold fanin_inv.
    cbn [unsent tagChan outputs out closed crashed arrived].
    rewrite !length_insert.
    do 5 (split; [done |]).
    exists sent. split; [done |]. split; [done |].
    intros j o Ho. destruct (Hrem j o Ho) as (c & d & r & b & p & Hc & Hd & Hb & Hp & Hcd & Hr).
    destruct (decide (j = i)) as [-> | Hne].
    + rewrite Hu in Hp. rewrite Ht in Hb. injection Hp as <-. injection Hb as <-.
      exists c, d, r, (buf ++ [m]), rest.
      split; [done |]. split; [done |].
      split; [rewrite list_lookup_insert_eq; [done | by eapply lookup_lt_Some] |].
      split; [rewrite list_lookup_insert_eq; [done | by eapply lookup_lt_Some] |].
      split; [done |]. by rewrite <- app_assoc.
    + exists c, d, r, b, p. rewrite !list_lookup_insert_ne by done. done.
  - (* Receive *)
    destruct (outputs st !! i) as [[| |]|] eqn:Ho'; try discriminate.
    destruct (tagChan st !! i) as [[|m buf]|] eqn:Ht; try discriminate.
    injection Hex as <-. unfold fanin_inv.
    cbn [unsent tagChan outputs out closed crashed arrived].
    rewrite !length_insert.
    do 4 (split; [done |]).
    split.
    { intros Hc j o Ho. specialize (Hcl Hc i _ Ho'). discriminate. }
    exists sent. split; [done |]. split; [done |].
    intros j o Ho.
    destruct (decide (j = i)) as [-> | Hne].
    + rewrite list_lookup_insert_eq in Ho by by eapply lookup_lt_Some.
      injection Ho as <-.
      destruct (Hrem i _ Ho') as (c & d & r & b & p & Hc & Hd & Hb & Hp & Hcd & Hr).
      rewrite Ht in Hb. injection Hb as <-.
      simpl in Hr. apply messages_head in Hr.
      exists c, d, r, buf, p.
      split; [done |]. split; [done |].
      split; [rewrite list_lookup_insert_eq; [done | by eapply lookup_lt_Some] |].
      split; [done |]. split; [done |].
      destruct m as [tag|]; exact Hr.
    + rewrite list_lookup_insert_ne in Ho by done.
      destruct (Hrem j o Ho) as (c & d & r & b & p & Hc & Hd & Hb & Hp & Hcd & Hr).
      exists c, d, r, b, p. rewrite !list_lookup_insert_ne by done. done.
  - (* Forward *)
    destruct (outputs st !! i) as [[|tag|]|] eqn:Ho'; try discriminate.
    destruct (closed st) eqn:Hc.
    { specialize (Hcl eq_refl i _ Ho'). discriminate. }
    destruct (length (out st) <? 50 * length (outputs st)); [|discriminate].
    injection Hex as <-. unfold fanin_inv.
    cbn [unsent tagChan outputs out closed crashed arrived].
    rewrite !length_insert.
    do 4 (split; [done |]). split; [done |].
    destruct (Hrem i _ Ho') as (c & d & r & b & p & Hci & Hd & Hb & Hp & Hcd & ts' & -> & Hr).
    exists (<[i := d ++ [tag]]> sent).
    split; [by rewrite length_insert |].
    split.
    { rewrite app_assoc. by apply Interleaving_snoc. }
    intros j o Ho.
    destruct (decide (j = i)) as [-> | Hne].
    + rewrite list_lookup_insert_eq in Ho by by eapply lookup_lt_Some.
      injection Ho as <-.
      exists c, (d ++ [tag]), ts', b, p.
      split; [done |].
      split; [rewrite list_lookup_insert_eq; [done | by eapply lookup_lt_Some] |].
      split; [done |]. split; [done |].
      split; [by rewrite <- app_assoc |]. exact Hr.
    + rewrite list_lookup_insert_ne in Ho by done.
      destruct (Hrem j o Ho) as (c' & d' & r' & b' & p' & ? & ? & ? & ? & ? & ?).
      exists c', d', r', b', p'. rewrite !list_lookup_insert_ne by done. done.
  - (* Close *)
    destruct (closed st) eqn:Hc; [discriminate |].
    destruct (forallb returned (outputs st)) eqn:Hall; [|discriminate].
    injection Hex as <-. unfold fanin_inv.
    cbn [unsent tagChan outputs out closed crashed arrived].
    do 4 (split; [done |]).
    split.
    { intros _ i o Ho. rewrite forallb_forall in Hall.
      assert (returned o = true) as Hret.
      { apply Hall. apply list_elem_of_In. by eapply list_elem_of_lookup_2. }
      by destruct o. }
    exists sent. done.
  - (* Arrive *)
    destruct (out st) as [|tag rest] eqn:Hout; [discriminate |].
    injection Hex as <-. unfold fanin_inv.
    cbn [unsent tagChan outputs out closed crashed arrived].
    do 5 (split; [done |]).
    exists sent. split; [done |].
    split; [by rewrite <- app_assoc |]. done.
Qed.

Lemma run_inv cs acts st st' :
  fanin_inv cs st → run acts st = Some st' → fanin_inv cs st'.
Proof.
  revert st. induction acts as [|a acts IH]; intros st Hinv; simpl.
  - by intros [= <-].
  - destruct (exec a st) as [st1|] eqn:Hex; [|discriminate].
    apply IH. by eapply exec_inv.
Qed.

Lemma run_app acts more st :
  run (acts ++ more) st
  = match run acts st with Some st' => run more st' | None => None end.
Proof.
  revert st. induction acts as [|a acts IH]; intros st; simpl; [done |].
  destruct (exec a st); [apply IH | done].
Qed.

(** Each action is one hop of one message, or the close. *)
Lemma exec_work a st st' : exec a st = Some st' → work st' < work st.
Proof.
  unfold exec. destruct (crashed st) eqn:Hcr; [discriminate |].
  destruct a as [i | i | i | |].
  - destruct (unsent st !! i) as [[|m rest]|] eqn:Hu; try discriminate.
    destruct (tagChan st !! i) as [buf|] eqn:Ht; try discriminate.
    destruct (length buf <? 50); [|discriminate].
    intros [= <-]. unfold work.
    cbn [unsent tagChan outputs out closed crashed]. rewrite Hcr.
    pose proof (sum_length_insert _ i _ rest Hu) as H1.
    pose proof (sum_length_insert _ i _ (buf ++ [m]) Ht) as H2.
    rewrite length_app in H2. simpl in H1, H2. lia.
  - destruct (outputs st !! i) as [[| |]|] eqn:Ho; try discriminate.
    destruct (tagChan st !! i) as [[|m buf]|] eqn:Ht; try discriminate.
    intros [= <-]. unfold work.
    cbn [unsent tagChan outputs out closed crashed]. rewrite Hcr.
    pose proof (sum_length_insert _ i _ buf Ht) as H1.
    pose proof (sum_sending_insert _ i _
                  (match m with Some tag => Sending tag | None => Done end) Ho) as H2.
    simpl in H1, H2.
    assert (sending (match m with Some tag => Sending tag | None => Done end) ≤ 1)
      by (destruct m; simpl; lia).
    lia.
  - destruct (outputs st !! i) as [[|tag|]|] eqn:Ho; try discriminate.
    destruct (closed st) eqn:Hc.
    + intros [= <-]. unfold work.
      cbn [unsent tagChan outputs out closed crashed]. rewrite Hcr, Hc. lia.
    + destruct (length (out st) <? 50 * length (outputs st)); [|discriminate].
      intros [= <-]. unfold work.
      cbn [unsent tagChan outputs out closed crashed]. rewrite Hcr, Hc.
      pose proof (sum_sending_insert _ i _ Receiving Ho) as H1.
      rewrite length_app. simpl in *. lia.
  - destruct (closed st) eqn:Hc; [discriminate |].
    destruct (forallb returned (outputs st)); [|discriminate].
    intros [= <-]. unfold work.
    cbn [unsent tagChan outputs out closed crashed]. rewrite Hcr, Hc. lia.
  - destruct (out st) as [|tag rest] eqn:Hout; [discriminate |].
    intros [= <-]. unfold work.
    cbn [unsent tagChan outputs out closed crashed]. rewrite Hcr, Hout.
    simpl. lia.
Qed.

Lemma run_work acts st st' :
  run acts st = Some st' → length acts + work st' ≤ work st.
Proof.
  revert st. induction acts as [|a acts IH]; intros st; simpl.
  - intros [= <-]. lia.
  - destruct (exec a st) as [st1|] eqn:Hex; [|discriminate].
    intros Hrun. apply IH in Hrun. apply exec_work in Hex. lia.
Qed.

Lemma not_all_returned (os : list output) :
  forallb returned os = false → ∃ i o, os !! i = Some o ∧ o ≠ Done.
Proof.
  induction os as [|o os IH]; simpl; [discriminate |].
  destruct o; simpl.
  - intros _. by exists 0, Receiving.
  - intros _. by exists 0, (Sending tag).
  - intros H. destruct (IH H) as (i & o & Hi & Ho). by exists (S i), o.
Qed.

(** No deadlock: while [out] is not closed and empty, some goroutine can
    act. *)
Lemma exec_progress cs st :
  fanin_inv cs st → drained st = false → ∃ a st', exec a st = Some st'.
Proof.
  intros (Hcr & Hlu & Hlt & Hlo & Hcl & sent & Hls & Hil & Hrem) Hdr.
  unfold drained in Hdr.
  destruct (out st) as [|tag rest] eqn:Hout.
  - destruct (closed st) eqn:Hc; [discriminate |].
    destruct (forallb returned (outputs st)) eqn:Hall.
    + exists Close. unfold exec. rewrite Hcr, Hc, Hall. eauto.
    + destruct (not_all_returned _ Hall) as (i & o & Ho & Hnd).
      destruct (Hrem i o Ho) as (c & d & r & b & p & Hci & Hd & Hb & Hp & Hcd & Hr).
      destruct o as [|tag|]; [| |done].
      * destruct b as [|m b].
        -- destruct p as [|m p].
           { simpl in Hr. unfold messages in Hr. by destruct r. }
           exists (Collect i). unfold exec. rewrite Hcr, Hp, Hb. simpl. eauto.
        -- exists (Receive i). unfold exec. rewrite Hcr, Ho, Hb. eauto.
      * exists (Forward i). unfold exec. rewrite Hcr, Ho, Hc, Hout.
        assert (0 < length (outputs st)) as Hpos.
        { apply lookup_lt_Some in Ho. lia. }
        assert ((length ([] : list Tag) <? 50 * length (outputs st)) = true) as ->.
        { apply Nat.ltb_lt. simpl. lia. }
        eauto.
  - exists Arrive. unfold exec. rewrite Hcr, Hout. eauto.
Qed.

(** Every state of the fan-in has a schedule that leads to the end of the
    loop of [getTags]. *)
Lemma run_completes cs st :
  fanin_inv cs st → ∃ more st', run more st = Some st' ∧ drained st' = true.
Proof.
  remember (work st) as n eqn:Hn. revert st Hn.
  induction n as [n IH] using lt_wf_ind. intros st -> Hinv.
  destruct (drained st) eqn:Hdr.
  - exists [], st. done.
  - destruct (exec_progress cs st Hinv Hdr) as (a & st1 & Hex).
    destruct (IH (work st1) (exec_work _ _ _ Hex) st1 eq_refl
                 (exec_inv _ _ _ _ Hinv Hex)) as (more & st' & Hrun & Hd).
    exists (a :: more), st'. simpl. rewrite Hex. done.
Qed.

Lemma fanin_inv_drained cs st :
  fanin_inv cs st → drained st = true → Interleaving cs (arrived st).
Proof.
  intros (Hcr & Hlu & Hlt & Hlo & Hcl & sent & Hls & Hil & Hrem) Hdr.
  unfold drained in Hdr. apply andb_prop in Hdr as [Hc Ho].
  destruct (out st) eqn:Hout; [|discriminate].
  rewrite app_nil_r in Hil.
  assert (sent = cs) as <-; [|done].
  apply list_eq_same_length with (length cs); [done.. |].
  intros i d c Hi Hd Hci.
  assert (is_Some (outputs st !! i)) as [o Hoi].
  { apply lookup_lt_is_Some_2. lia. }
  destruct (Hrem i o Hoi) as (c' & d' & r & b & p & Hc' & Hd' & _ & _ & Hcd & Hr).
  rewrite (Hcl Hc i o Hoi) in Hr. destruct Hr as [_ ->].
  rewrite app_nil_r in Hcd. congruence.
Qed.

(** X18: the fan-in of [multiplex] never sends on the closed [out], which is
    closed only when every [output] goroutine has returned; and when the loop
    of [getTags] ends, it has received every tag of every file exactly once,
    the tags of each file in the order the file has them: what arrived is an
    interleaving of what the channels carry. *)
Theorem multiplex_delivers_interleaving cs acts st :
  run acts (start cs) = Some st →
  crashed st = false
  ∧ (closed st = true → ∀ i o, outputs st !! i = Some o → o = Done)
  ∧ (drained st = true → Interleaving cs (arrived st))
  ∧ (drained st = true → arrived st ≡ₚ concat cs).
Proof.
  intros Hrun.
  pose proof (run_inv cs acts _ _ (fanin_inv_start cs) Hrun) as Hinv.
  split; [apply Hinv |]. split; [apply Hinv |].
  split; intros Hdr; pose proof (fanin_inv_drained cs st Hinv Hdr) as Hil;
    [done |]. by apply Interleaving_perm.
Qed.

(** X19: the fan-in neither deadlocks nor runs forever: a schedule from the
    call of [multiplex] has at most four actions for each tag and each file
    and two more; while [out] is not closed and empty some goroutine can act;
    and every schedule extends to one at whose end the loop of [getTags]
    leaves. *)
Theorem multiplex_completes cs acts st :
  run acts (start cs) = Some st →
  length acts ≤ 4 * (length (concat cs) + length cs) + 2
  ∧ (drained st = false → ∃ a st', exec a st = Some st')
  ∧ ∃ more st', run (acts ++ more) (start cs) = Some st' ∧ drained st' = true.
Proof.
  intros Hrun.
  pose proof (run_inv cs acts _ _ (fanin_inv_start cs) Hrun) as Hinv.
  split; [|split].
  - apply run_work in Hrun. rewrite work_start in Hrun. lia.
  - by apply (exec_progress cs).
  - destruct (run_completes cs st Hinv) as (more & st' & Hmore & Hd).
    exists more, st'. by rewrite run_app, Hrun.
Qed.

Lemma multiplex_delivers_interleaving_witness :
  ∃ st, run example_schedule (start [[created; updated]; []]) = Some st
        ∧ crashed st = false
        ∧ Interleaving [[created; updated]; []] (arrived st).
Proof.
  destruct (run example_schedule (start [[created; updated]; []]))
    as [st|] eqn:Hrun; [|vm_compute in Hrun; discriminate Hrun].
  exists st. split; [reflexivity |].
  destruct (multiplex_delivers_interleaving _ _ _ Hrun) as (Hcr & _ & Hil & _).
  split; [exact Hcr |]. apply Hil.
  vm_compute in Hrun. injection Hrun as <-. reflexivity.
Defined.

Lemma multiplex_completes_witness :
  ∃ st, run (take 6 example_schedule) (start [[created; updated]; []]) = Some st
        ∧ (∃ a st', exec a st = Some st')
        ∧ ∃ more st', run (take 6 example_schedule ++ more)
                          (start [[created; updated]; []]) = Some st'
                      ∧ drained st' = true.
Proof.
  destruct (run (take 6 example_schedule) (start [[created; updated]; []]))
    as [st|] eqn:Hrun; [|vm_compute in Hrun; discriminate Hrun].
  exists st. split; [reflexivity |].
  destruct (multiplex_completes _ _ _ Hrun) as (_ & Hstep & Hend).
  split; [|exact Hend]. apply Hstep.
  vm_compute in Hrun. injection Hrun as <-. reflexivity.
Defined.
